(** * Requirements search engine: chunking, batched indexing, hybrid ranking

    A shallow embedding of [RequirementsSearchEngine] (the engine class of
    the repository) and the properties of its chunker, identity assignment,
    batch pipeline, ranker and statistics.

    Conventions of the model:
    - a JavaScript string is a [string] of 8-bit characters; whitespace is
      the ASCII part of the class [\s] (tab, line feed, vertical tab, form
      feed, carriage return, space) and [toLowerCase] is its ASCII part;
    - a JavaScript number holding an index or a count is a [Z]; a score is
      a [Q] (every finite double is a rational, and comparisons agree);
    - the vector store, the embedding provider and the spreadsheet reader are
      opaque collaborators: their behaviour is a parameter of the model;
    - a call of a collaborator takes effect when it is answered, and the
      callbacks of one [Promise.all] go on in the order in which their
      calls are answered, which is the outside's choice as well. *)

From Stdlib Require Import ZArith QArith Qround List String Ascii Bool Lia.
From Stdlib Require Import Permutation Sorted DecimalString DecimalZ Lqa.
From stdpp Require Import base option list strings gmap.

Local Open Scope Z_scope.

(** ** JavaScript primitives used by the engine *)

Module JS.

(** The ASCII members of the regular-expression class [\s]. *)
Definition is_space (c : ascii) : bool :=
  let n := nat_of_ascii c in
  Nat.eqb n 32 || (Nat.leb 9 n && Nat.leb n 13).

(** [s.split(/\s+/)]: the pieces between maximal whitespace runs.  A run
    at either end of [s] leaves an empty piece there, and the empty
    string splits into one empty piece. *)
Fixpoint split_ws (s : string) : list string :=
  match s with
  | EmptyString => [EmptyString]
  | String c s' =>
      if is_space c then
        match s' with
        | String c' _ =>
            if is_space c' then split_ws s' else EmptyString :: split_ws s'
        | EmptyString => EmptyString :: split_ws s'
        end
      else
        match split_ws s' with
        | w :: ws => String c w :: ws
        | [] => [String c EmptyString]
        end
  end.

(** [ws.join(sep)]. *)
Fixpoint join (sep : string) (ws : list string) : string :=
  match ws with
  | [] => EmptyString
  | [w] => w
  | w :: ws' => String.append w (String.append sep (join sep ws'))
  end.

Fixpoint trimStart (s : string) : string :=
  match s with
  | EmptyString => EmptyString
  | String c s' => if is_space c then trimStart s' else s
  end.

Fixpoint trimEnd (s : string) : string :=
  match s with
  | EmptyString => EmptyString
  | String c s' =>
      match trimEnd s' with
      | EmptyString => if is_space c then EmptyString else String c EmptyString
      | t => String c t
      end
  end.

(** [s.trim()]. *)
Definition trim (s : string) : string := trimEnd (trimStart s).

Definition lower_ascii (c : ascii) : ascii :=
  let n := nat_of_ascii c in
  if Nat.leb 65 n && Nat.leb n 90 then ascii_of_nat (n + 32) else c.

(** [s.toLowerCase()] on the letters A to Z; every other character is
    left as it is.  The statements below take the function as it stands:
    none of them rests on a law of this definition that
    [String.prototype.toLowerCase] lacks. *)
Fixpoint toLowerCase (s : string) : string :=
  match s with
  | EmptyString => EmptyString
  | String c s' => String (lower_ascii c) (toLowerCase s')
  end.

(** [s.includes(w)]: [w] occurs in [s] as a contiguous substring. *)
Fixpoint includes (s w : string) : bool :=
  String.prefix w s ||
  match s with
  | EmptyString => false
  | String _ s' => includes s' w
  end.

(** [s.substring(0, n)] for [n >= 0]. *)
Definition substring0 (n : nat) (s : string) : string := String.substring 0 n s.

(** The relative-index rule of [Array.prototype.slice]: a negative index
    counts from the end, and the result is clamped to [0, len]. *)
Definition rel_index (len k : Z) : Z :=
  if k <? 0 then Z.max (len + k) 0 else Z.min k len.

(** [l.slice(start, stop)]. *)
Definition slice {A} (l : list A) (start stop : Z) : list A :=
  let len := Z.of_nat (length l) in
  let k := rel_index len start in
  let f := rel_index len stop in
  firstn (Z.to_nat (f - k)) (skipn (Z.to_nat k) l).

(** Template-literal rendering of an integer. *)
Definition string_of_Z (z : Z) : string := NilZero.string_of_int (Z.to_int z).

End JS.

(** ** Outcomes of a call *)

Record Error := mkError { message : string }.

(** How a call ends: it returns, it throws, or the model's iteration
    bound is reached while a loop is still running. *)
Inductive result (A : Type) :=
| Ok (a : A)
| Throw (e : Error)
| OutOfFuel.
Arguments Ok {A} a.
Arguments Throw {A} e.
Arguments OutOfFuel {A}.

(** ** 4.1 Chunker: [splitIntoChunks] *)

Record Chunk := mkChunk {
  chunk_text : string;
  startIndex : Z;
  wordCount : Z
}.

(** The state of the [for] loop: the counter [i] and the array [chunks]. *)
Record loop_state := mkLoop {
  loop_i : Z;
  loop_chunks : list Chunk
}.

Section Chunker.
Variables (words : list string) (chunkSize overlap : Z).

(** The window the loop body builds at counter [i]. *)
Definition window (i : Z) : Chunk :=
  let chunk := JS.join " " (JS.slice words i (i + chunkSize)) in
  {| chunk_text := JS.trim chunk;
     startIndex := i;
     wordCount := Z.min chunkSize (Z.of_nat (length words) - i) |}.

(** The guard [chunk.trim().length > 0] of the loop body. *)
Definition nonblank (i : Z) : bool :=
  negb (Nat.eqb (String.length (chunk_text (window i))) 0).

(** The loop condition [i < words.length]. *)
Definition loop_cond (st : loop_state) : bool :=
  loop_i st <? Z.of_nat (length words).

(** One iteration: the body, then [i += chunkSize - overlap]. *)
Definition loop_body (st : loop_state) : loop_state :=
  {| loop_i := loop_i st + (chunkSize - overlap);
     loop_chunks :=
       if nonblank (loop_i st)
       then loop_chunks st ++ [window (loop_i st)]
       else loop_chunks st |}.

(** The loop, bounded by [fuel] iterations; [OutOfFuel] when the bound
    is reached with the loop condition still true.  The function has no
    [throw] statement. *)
Fixpoint run_loop (fuel : nat) (st : loop_state) : result (list Chunk) :=
  if loop_cond st then
    match fuel with
    | O => OutOfFuel
    | S fuel' => run_loop fuel' (loop_body st)
    end
  else Ok (loop_chunks st).

(** The loop as an unbounded iteration sequence. *)
Fixpoint iterate (k : nat) (st : loop_state) : loop_state :=
  match k with
  | O => st
  | S k' => iterate k' (loop_body st)
  end.
End Chunker.

Definition splitIntoChunks (fuel : nat) (text : string) (chunkSize overlap : Z)
  : result (list Chunk) :=
  run_loop (JS.split_ws text) chunkSize overlap fuel (mkLoop 0 []).

Definition default_chunkSize : Z := 500.
Definition default_overlap : Z := 50.

Definition line_feed : ascii := ascii_of_nat 10.

(** A text of [n] one-letter words separated by single spaces. *)
Fixpoint words_text (n : nat) : string :=
  match n with
  | O => EmptyString
  | 1%nat => "w"
  | S n' => String.append "w " (words_text n')
  end.


(** ** 3. Data model *)

Inductive DocType := pdf | docx | excel | plain.

(** One record of [extractTextFromFile]; [sheet], [row] and [rowRange]
    are absent ([undefined]) unless the file is a spreadsheet. *)
Record ExtractedUnit := mkUnit {
  u_text : string;
  u_fileName : string;
  u_type : DocType;
  u_sheet : option string;
  u_row : option Z;
  u_rowRange : option string
}.

Record Metadata := mkMetadata {
  m_fileName : string;
  m_filePath : string;
  m_chunkIndex : Z;
  m_text : string;
  m_wordCount : Z;
  m_preview : string;
  m_type : DocType;
  m_sheet : option string;
  m_row : option Z;
  m_rowRange : option string;
  m_originalTextLength : Z;
  m_chunkStartIndex : Z
}.

Record Item := mkItem {
  item_id : string;
  item_vector : list Q;
  item_metadata : Metadata
}.

(** An element of the answer of [queryItems]. *)
Record QueryResult := mkQueryResult {
  qr_score : Q;
  qr_item : Item
}.

(** The lexical fields [search] adds when [includeTextMatches] is set. *)
Record Lexical := mkLexical {
  lx_textMatches : list string;
  lx_hasDirectMatch : bool;
  lx_textMatchScore : Q
}.

Record SearchResult := mkSearchResult {
  score : Q;
  fileName : string;
  text : string;
  preview : string;
  chunkIndex : Z;
  relevancePercentage : Z;
  type : DocType;
  sheet : option string;
  row : option Z;
  rowRange : option string;
  lexical : option Lexical
}.

Record SearchOptions := mkOptions {
  includeTextMatches : bool;
  minScore : Q
}.

Definition default_options : SearchOptions :=
  {| includeTextMatches := false; minScore := 0%Q |}.

Record Stats := mkStats {
  totalChunks : Z;
  totalDocuments : Z;
  documents : list string;
  stats_indexPath : string
}.

(** ** Spreadsheets as the reader hands them over *)

Inductive CellValue :=
| VString (s : string)
| VNumber (z : Z)
| VBool (b : bool).

(** A decoded ['!ref'] range: start and end row and column, inclusive. *)
Record Range := mkRange { s_r : Z; s_c : Z; e_r : Z; e_c : Z }.

Record Worksheet := mkWorksheet {
  ws_ref : option Range;
  ws_cells : gmap (Z * Z) CellValue
}.

Record Workbook := mkWorkbook {
  SheetNames : list string;
  Sheets : gmap string Worksheet
}.

(** ** The engine state and the collaborators *)

Record Engine := mkEngine {
  indexPath : string;
  isInitialized : bool;
  debugMode : bool
}.

(** What the pipeline does to the outside, in program order. *)
Inductive Event :=
| Delay (ms : Z)
| Insert (id : string) (metadata : Metadata).

(** [Delay ms] is a [setTimeout] wait; [Insert id metadata] is a call of
    [insertItem] with that identifier and metadata. *)

(** The vector store, the embedding provider, the file readers and the
    path helpers, over a state [W] of everything outside the engine.  The
    outside also decides in which order calls that are pending at the same
    time are answered: [next_answer n w] is the position, among [n]
    pending calls, of the one that is answered next. *)
Class Collaborators (W : Type) := {
  createIndex : W -> result unit * W;
  insertItem : Item -> W -> result unit * W;
  queryItems : list Q -> Z -> W -> result (list QueryResult) * W;
  listItems : W -> result (list Item) * W;
  embeddings_create : string -> W -> result (list Q) * W;
  read_pdf : string -> W -> result string * W;
  read_docx : string -> W -> result string * W;
  read_utf8 : string -> W -> result string * W;
  XLSX_readFile : string -> W -> result Workbook * W;
  path_extname : string -> string;
  path_basename : string -> string;
  next_answer : nat -> W -> nat
}.

Record State (W : Type) := mkState {
  engine : Engine;
  world : W;
  trace : list Event
}.
Arguments mkState {W}.
Arguments engine {W}.
Arguments world {W}.
Arguments trace {W}.

Definition M (W A : Type) : Type := State W -> result A * State W.

Definition ret {W A} (a : A) : M W A := fun st => (Ok a, st).

Definition throw {W A} (e : Error) : M W A := fun st => (Throw e, st).

Definition bind {W A B} (m : M W A) (k : A -> M W B) : M W B :=
  fun st =>
    match m st with
    | (Ok a, st') => k a st'
    | (Throw e, st') => (Throw e, st')
    | (OutOfFuel, st') => (OutOfFuel, st')
    end.

(** [try { m } catch (error) { h error }]. *)
Definition try_catch {W A} (m : M W A) (h : Error -> M W A) : M W A :=
  fun st =>
    match m st with
    | (Throw e, st') => h e st'
    | r => r
    end.

Notation "'do' x <- m ; k" := (bind m (fun x => k))
  (at level 10, x name, m at level 100, k at level 200).

Definition lift_world {W A} (f : W -> result A * W) : M W A :=
  fun st =>
    let '(r, w) := f (world st) in
    (r, mkState (engine st) w (trace st)).

Definition lift_result {W A} (r : result A) : M W A := fun st => (r, st).

Definition emit {W} (e : Event) : M W unit :=
  fun st => (Ok tt, mkState (engine st) (world st) (trace st ++ [e])).

Definition get_engine {W} : M W Engine := fun st => (Ok (engine st), st).

Definition set_initialized {W} (b : bool) : M W unit :=
  fun st =>
    let e := engine st in
    (Ok tt, mkState (mkEngine (indexPath e) b (debugMode e)) (world st) (trace st)).

(** JavaScript truthiness of an optional string and an optional number. *)
Definition truthy_string (o : option string) : bool :=
  match o with
  | Some s => negb (String.eqb s EmptyString)
  | None => false
  end.

Definition truthy_number (o : option Z) : bool :=
  match o with
  | Some z => negb (z =? 0)
  | None => false
  end.

Definition truthy_cell (v : CellValue) : bool :=
  match v with
  | VString s => negb (String.eqb s EmptyString)
  | VNumber z => negb (z =? 0)
  | VBool b => b
  end.

(** [String(cell.v)]. *)
Definition String_of_cell (v : CellValue) : string :=
  match v with
  | VString s => s
  | VNumber z => JS.string_of_Z z
  | VBool true => "true"
  | VBool false => "false"
  end.

(** [x || null] on an optional field. *)
Definition or_null {A} (truthy : option A -> bool) (o : option A) : option A :=
  if truthy o then o else None.

(** Template-literal rendering of an optional field. *)
Definition render_string (o : option string) : string :=
  match o with Some s => s | None => "undefined" end.

Definition render_number (o : option Z) : string :=
  match o with Some z => JS.string_of_Z z | None => "undefined" end.

(** ** The engine's operations *)

Record ExcelRow := mkExcelRow {
  er_text : string;
  er_sheet : string;
  er_row : Z;
  er_rowRange : string
}.

Record IndexReport := mkReport {
  report_fileName : string;
  chunksCreated : Z
}.

(** The strings of one spreadsheet row: the cells of the range's columns
    that exist and hold a truthy value. *)
Definition row_cells (ws : Worksheet) (range : Range) (r : Z) : list string :=
  omap (fun c =>
          match ws_cells ws !! (r, c) with
          | Some v => if truthy_cell v then Some (String_of_cell v) else None
          | None => None
          end)
       (seqZ (s_c range) (e_c range - s_c range + 1)).

(** The body of the [forEach] over sheet names, for one sheet. *)
Definition sheet_rows (sheetName : string) (ws : Worksheet) : list ExcelRow :=
  match ws_ref ws with
  | None => []
  | Some range =>
      omap (fun r =>
              let rowData := row_cells ws range r in
              if (0 <? Z.of_nat (length rowData)) then
                Some {| er_text := JS.join " | " rowData;
                        er_sheet := sheetName;
                        er_row := r + 1;
                        er_rowRange :=
                          String.append (JS.string_of_Z (r + 1))
                            (String.append ":" (JS.string_of_Z (r + 1))) |}
              else None)
           (seqZ (s_r range) (e_r range - s_r range + 1))
  end.

(** The [forEach] over [workbook.SheetNames]; reading ['!ref'] of a sheet
    that [workbook.Sheets] lacks is a [TypeError]. *)
Fixpoint excel_rows (sheets : gmap string Worksheet) (names : list string)
  : result (list ExcelRow) :=
  match names with
  | [] => Ok []
  | sheetName :: names' =>
      match sheets !! sheetName with
      | None => Throw (mkError "Cannot read properties of undefined")
      | Some ws =>
          match excel_rows sheets names' with
          | Ok rest => Ok (sheet_rows sheetName ws ++ rest)
          | other => other
          end
      end
  end.

Definition batchSize : Z := 5.

(** The identifier [indexDocument] gives to chunk number [idx] of [data]. *)
Definition chunkId (data : ExtractedUnit) (idx : Z) : string :=
  if truthy_string (u_sheet data) then
    String.append (u_fileName data)
      (String.append "_"
         (String.append (render_string (u_sheet data))
            (String.append "_row"
               (String.append (render_number (u_row data))
                  (String.append "_chunk" (JS.string_of_Z idx))))))
  else
    String.append (u_fileName data)
      (String.append "_chunk_" (JS.string_of_Z idx)).

Definition chunk_metadata (filePath : string) (data : ExtractedUnit)
    (idx : Z) (chunk : Chunk) : Metadata :=
  {| m_fileName := u_fileName data;
     m_filePath := filePath;
     m_chunkIndex := idx;
     m_text := chunk_text chunk;
     m_wordCount := wordCount chunk;
     m_preview := String.append (JS.substring0 150 (chunk_text chunk)) "...";
     m_type := u_type data;
     m_sheet := or_null truthy_string (u_sheet data);
     m_row := or_null truthy_number (u_row data);
     m_rowRange := or_null truthy_string (u_rowRange data);
     m_originalTextLength := Z.of_nat (String.length (u_text data));
     m_chunkStartIndex := startIndex chunk |}.

(** [text.replace(/\s+/g, ' ')]. *)
Fixpoint collapse_ws (s : string) : string :=
  match s with
  | EmptyString => EmptyString
  | String c s' =>
      if JS.is_space c then
        match s' with
        | String c' _ =>
            if JS.is_space c' then collapse_ws s'
            else String " " (collapse_ws s')
        | EmptyString => String " " EmptyString
        end
      else String c (collapse_ws s')
  end.

(** [[...new Set(xs)]]: the distinct elements, each at its first place. *)
Fixpoint uniq (xs : list string) : list string :=
  match xs with
  | [] => []
  | x :: xs' => x :: List.filter (fun y => negb (String.eqb y x)) (uniq xs')
  end.

(** The callback [item => ({ ...item, fileName, type: 'excel' })]. *)
Definition unit_of_row (fileName : string) (item : ExcelRow) : ExtractedUnit :=
  mkUnit (er_text item) fileName excel (Some (er_sheet item))
         (Some (er_row item)) (Some (er_rowRange item)).

(** A callback of [batch.map(async (chunk, batchIndex) => ...)] at one of
    its two [await]s: it waits for the embedding of its chunk, or for the
    store's answer to the insert of its item. *)
Inductive Callback :=
| AwaitsEmbedding (chunk : Chunk) (batchIndex : Z)
| AwaitsInsert (item : Item).

(** [batch.map(async (chunk, batchIndex) => ...)]: one callback for each
    chunk, each one at its first [await]. *)
Fixpoint callbacks (batch : list Chunk) (batchIndex : Z) : list Callback :=
  match batch with
  | [] => []
  | chunk :: rest =>
      AwaitsEmbedding chunk batchIndex :: callbacks rest (batchIndex + 1)
  end.

Section Engine.
Context {W : Type} {C : Collaborators W}.

Definition initialize : M W unit :=
  do e <- get_engine;
  if isInitialized e then ret tt
  else
    try_catch
      (do _ <- lift_world createIndex; set_initialized true)
      (fun error =>
         if JS.includes (message error) "already exists"
         then set_initialized true
         else throw error).

Definition extractTextFromExcel (filePath : string) : M W (list ExcelRow) :=
  do workbook <- lift_world (XLSX_readFile filePath);
  lift_result (excel_rows (Sheets workbook) (SheetNames workbook)).

Definition extractTextFromFile (filePath : string) : M W (list ExtractedUnit) :=
  let ext := JS.toLowerCase (path_extname filePath) in
  let fileName := path_basename filePath in
  if String.eqb ext ".pdf" then
    do t <- lift_world (read_pdf filePath);
    ret [mkUnit t fileName pdf None None None]
  else if String.eqb ext ".docx" then
    do t <- lift_world (read_docx filePath);
    ret [mkUnit t fileName docx None None None]
  else if String.eqb ext ".xlsx" || String.eqb ext ".xls" then
    do excelData <- extractTextFromExcel filePath;
    ret (map (unit_of_row fileName) excelData)
  else if String.eqb ext ".txt" || String.eqb ext ".md" then
    do t <- lift_world (read_utf8 filePath);
    ret [mkUnit t fileName plain None None None]
  else throw (mkError (String.append "Unsupported file format: " ext)).

Definition generateEmbedding (text : string) : M W (list Q) :=
  let cleanText := collapse_ws (JS.trim text) in
  lift_world (embeddings_create cleanText).

(** The callback of [batch.map] in [indexDocument], from the call it
    awaits to its next [await]: when the embedding arrives it builds the
    item and calls [insertItem], and when the store has answered it is
    done. *)
Definition indexChunk (filePath : string) (data : ExtractedUnit) (i : Z)
    (callback : Callback) : M W (option Callback) :=
  match callback with
  | AwaitsEmbedding chunk batchIndex =>
      do embedding <- generateEmbedding (chunk_text chunk);
      let item :=
        {| item_id := chunkId data (i + batchIndex);
           item_vector := embedding;
           item_metadata := chunk_metadata filePath data (i + batchIndex) chunk |} in
      do _ <- emit (Insert (item_id item) (item_metadata item));
      ret (Some (AwaitsInsert item))
  | AwaitsInsert item =>
      do _ <- lift_world (insertItem item);
      ret None
  end.

(** [await Promise.all(batch.map(async ...))].  The callbacks are all
    started, and each goes on when the call it awaits is answered, in the
    order the outside answers.  The promise is rejected with the first
    error a callback throws; the other callbacks are not cancelled, and
    the model lets them come to their end before the rejection reaches
    the caller.  A callback takes two answers, so [steps] is twice the
    size of the batch. *)
Fixpoint promise_all (steps : nat) (filePath : string) (data : ExtractedUnit)
    (i : Z) (pending : list Callback) (rejected : option Error) : M W unit :=
  match pending with
  | [] =>
      match rejected with
      | Some error => throw error
      | None => ret tt
      end
  | first :: _ =>
      match steps with
      | O => lift_result OutOfFuel
      | S steps' =>
          fun st =>
            let k := (next_answer (length pending) (world st)
                      mod length pending)%nat in
            match indexChunk filePath data i (nth k pending first) st with
            | (Ok (Some callback), st') =>
                promise_all steps' filePath data i (<[k := callback]> pending)
                  rejected st'
            | (Ok None, st') =>
                promise_all steps' filePath data i (delete k pending)
                  rejected st'
            | (Throw error, st') =>
                promise_all steps' filePath data i (delete k pending)
                  (Some (match rejected with
                         | Some earlier => earlier
                         | None => error
                         end)) st'
            | (OutOfFuel, st') => (OutOfFuel, st')
            end
      end
  end.

(** The loop [for (let i = 0; i < chunks.length; i += batchSize)]. *)
Fixpoint batch_loop (fuel : nat) (filePath : string) (data : ExtractedUnit)
    (chunks : list Chunk) (i : Z) : M W unit :=
  if i <? Z.of_nat (length chunks) then
    match fuel with
    | O => lift_result OutOfFuel
    | S fuel' =>
        let batch := JS.slice chunks i (i + batchSize) in
        do _ <- promise_all (2 * length batch) filePath data i
                  (callbacks batch 0) None;
        do _ <- (if i + batchSize <? Z.of_nat (length chunks)
                 then emit (Delay 100) else ret tt);
        batch_loop fuel' filePath data chunks (i + batchSize)
    end
  else ret tt.

(** The body of [for (const data of extractedData)]; the iteration
    bounds handed to the loops are never reached (see
    [splitIntoChunks_default_returns] and [ends_batch_loop]). *)
Definition indexUnit (filePath : string) (data : ExtractedUnit) : M W Z :=
  do chunks <- lift_result
                 (splitIntoChunks (length (JS.split_ws (u_text data)))
                    (u_text data) default_chunkSize default_overlap);
  do _ <- batch_loop (length chunks) filePath data chunks 0;
  ret (Z.of_nat (length chunks)).

Fixpoint indexUnits (filePath : string) (extractedData : list ExtractedUnit)
    (totalChunks : Z) : M W Z :=
  match extractedData with
  | [] => ret totalChunks
  | data :: rest =>
      do n <- indexUnit filePath data;
      indexUnits filePath rest (totalChunks + n)
  end.

Definition indexDocument (filePath : string) : M W IndexReport :=
  do _ <- initialize;
  do extractedData <- extractTextFromFile filePath;
  do totalChunks <- indexUnits filePath extractedData 0;
  ret {| report_fileName := path_basename filePath;
         chunksCreated := totalChunks |}.

Definition getStats : M W Stats :=
  do _ <- initialize;
  do e <- get_engine;
  try_catch
    (do items <- lift_world listItems;
     let fileNames := uniq (map (fun item => m_fileName (item_metadata item)) items) in
     ret {| totalChunks := Z.of_nat (length items);
            totalDocuments := Z.of_nat (length fileNames);
            documents := fileNames;
            stats_indexPath := indexPath e |})
    (fun _ =>
       ret {| totalChunks := 0;
              totalDocuments := 0;
              documents := [];
              stats_indexPath := indexPath e |}).
End Engine.

(** ** 4.4 Hybrid query ranker: [search] *)

(** The body of [queryWords.forEach] on the pair [(textMatches,
    hasDirectMatch)]. *)
Definition scan_word (text : string) (acc : list string * bool) (word : string)
  : list string * bool :=
  if Nat.ltb 2 (String.length word) && JS.includes text word
  then (fst acc ++ [word], true)
  else acc.

Definition analyse_matches (query : string) (chunkText : string) : Lexical :=
  let queryWords := JS.split_ws (JS.toLowerCase query) in
  let text := JS.toLowerCase chunkText in
  let '(textMatches, hasDirectMatch) :=
    fold_left (scan_word text) queryWords ([], false) in
  {| lx_textMatches := textMatches;
     lx_hasDirectMatch := hasDirectMatch;
     lx_textMatchScore :=
       (inject_Z (Z.of_nat (length textMatches))
        / inject_Z (Z.of_nat (length (JS.split_ws query))))%Q |}.

(** The callback of [results.map]. *)
Definition processResult (query : string) (opts : SearchOptions)
    (result : QueryResult) : SearchResult :=
  let metadata := item_metadata (qr_item result) in
  {| score := qr_score result;
     fileName := m_fileName metadata;
     text := m_text metadata;
     preview := m_preview metadata;
     chunkIndex := m_chunkIndex metadata;
     relevancePercentage := Qfloor (qr_score result * 100 + (1 # 2))%Q;
     type := m_type metadata;
     sheet := m_sheet metadata;
     row := m_row metadata;
     rowRange := m_rowRange metadata;
     lexical :=
       if includeTextMatches opts
       then Some (analyse_matches query (m_text metadata))
       else None |}.

(** Property reads on a result; a field that was never set reads as
    falsy.  The comparator runs only when every result has the fields. *)
Definition hasDirectMatch (r : SearchResult) : bool :=
  match lexical r with Some l => lx_hasDirectMatch l | None => false end.

Definition textMatchScore (r : SearchResult) : Q :=
  match lexical r with Some l => lx_textMatchScore l | None => 0%Q end.

Definition textMatches (r : SearchResult) : list string :=
  match lexical r with Some l => lx_textMatches l | None => [] end.

(** The comparator handed to [sort]. *)
Definition compareFn (a b : SearchResult) : Q :=
  if hasDirectMatch a && negb (hasDirectMatch b) then (-1)%Q
  else if negb (hasDirectMatch a) && hasDirectMatch b then 1%Q
  else if negb (Qeq_bool (textMatchScore a) (textMatchScore b))
  then (textMatchScore b - textMatchScore a)%Q
  else (score b - score a)%Q.

(** [Array.prototype.sort] is stable: an element moves behind another one
    only when the comparator is positive on the pair. *)
Fixpoint sort_insert {A} (cmp : A -> A -> Q) (x : A) (l : list A) : list A :=
  match l with
  | [] => [x]
  | y :: l' =>
      if Qle_bool (cmp x y) 0 then x :: l else y :: sort_insert cmp x l'
  end.

Definition js_sort {A} (cmp : A -> A -> Q) (l : list A) : list A :=
  fold_right (sort_insert cmp) [] l.

(** Everything [search] does with the candidates the store returned. *)
Definition rank (query : string) (topK : Z) (opts : SearchOptions)
    (results : list QueryResult) : list SearchResult :=
  let processedResults := map (processResult query opts) results in
  let filteredResults :=
    if negb (Qle_bool (minScore opts) 0)
    then List.filter (fun r => Qle_bool (minScore opts) (score r)) processedResults
    else processedResults in
  let sorted :=
    if includeTextMatches opts
    then js_sort compareFn filteredResults
    else filteredResults in
  JS.slice sorted 0 topK.

Section Search.
Context {W : Type} {C : Collaborators W}.

Definition search (query : string) (topK : Z) (opts : SearchOptions)
  : M W (list SearchResult) :=
  do _ <- initialize;
  do queryEmbedding <- generateEmbedding query;
  do results <- lift_world (queryItems queryEmbedding (Z.max (topK * 3) 50));
  ret (rank query topK opts results).
End Search.

Definition mk_candidate (s : Q) (t : string) : QueryResult :=
  {| qr_score := s;
     qr_item :=
       {| item_id := "doc.txt_chunk_0";
          item_vector := [];
          item_metadata :=
            {| m_fileName := "doc.txt"; m_filePath := "doc.txt";
               m_chunkIndex := 0; m_text := t; m_wordCount := 0;
               m_preview := ""; m_type := plain; m_sheet := None;
               m_row := None; m_rowRange := None;
               m_originalTextLength := 0; m_chunkStartIndex := 0 |} |} |}.


(** ** Reference definitions for the statements *)

(** The loop counters [0, stride, 2*stride, ...] below [n]. *)
Definition offsets (n stride : Z) : list Z :=
  map (fun k => Z.of_nat k * stride) (seq 0 (Z.to_nat ((n + stride - 1) / stride))).

(** A string of whitespace only. *)
Fixpoint all_space (s : string) : bool :=
  match s with
  | EmptyString => true
  | String c s' => JS.is_space c && all_space s'
  end.

(** A string without any whitespace. *)
Fixpoint no_space (s : string) : bool :=
  match s with
  | EmptyString => true
  | String c s' => negb (JS.is_space c) && no_space s'
  end.

Definition is_empty_string (s : string) : bool :=
  match s with EmptyString => true | _ => false end.

(** [ceil(a / b)] for [b > 0]. *)
Definition ceil_div (a b : Z) : Z := (a + b - 1) / b.

(** Whether a string begins with a whitespace character. *)
Definition starts_space (s : string) : bool :=
  match s with
  | String c _ => JS.is_space c
  | EmptyString => false
  end.

(** Whether a string ends with a whitespace character. *)
Fixpoint ends_space (s : string) : bool :=
  match s with
  | EmptyString => false
  | String c EmptyString => JS.is_space c
  | String _ s' => ends_space s'
  end.

(** Whether a string begins with a character that is not whitespace. *)
Definition starts_word (s : string) : bool :=
  match s with
  | String c _ => negb (JS.is_space c)
  | EmptyString => false
  end.

(** The number of words of a text: its maximal runs of characters that
    are not whitespace, counted where they end. *)
Fixpoint count_words (s : string) : nat :=
  match s with
  | EmptyString => 0
  | String c s' =>
      if JS.is_space c then count_words s'
      else if starts_word s' then count_words s'
      else S (count_words s')
  end.

(** The composite key of the specification: [a] may stand before [b]
    when it has a direct match and [b] has none, or, both agreeing on that,
    its text-match score is higher, or, both agreeing on that too, its
    similarity score is not lower. *)
Definition key_ge (a b : SearchResult) : Prop :=
  (hasDirectMatch a = true /\ hasDirectMatch b = false)
  \/ (hasDirectMatch a = hasDirectMatch b
      /\ ((textMatchScore b < textMatchScore a)%Q
          \/ ((textMatchScore a == textMatchScore b)%Q /\ (score b <= score a)%Q))).

(** The test of [scan_word]: a token longer than two characters that
    occurs in [text]. *)
Definition token_matches (text : string) (word : string) : bool :=
  Nat.ltb 2 (String.length word) && JS.includes text word.

(** The [Insert] events of consecutive chunks numbered from [idx]. *)
Fixpoint batch_events (filePath : string) (data : ExtractedUnit) (idx : Z)
    (batch : list Chunk) : list Event :=
  match batch with
  | [] => []
  | chunk :: rest =>
      Insert (chunkId data idx) (chunk_metadata filePath data idx chunk)
      :: batch_events filePath data (idx + 1) rest
  end.

(** The [Insert] events that the pending callbacks of a batch have still
    to make: one for each callback that awaits its embedding. *)
Definition pending_events (filePath : string) (data : ExtractedUnit) (i : Z)
    (pending : list Callback) : list Event :=
  omap (fun callback =>
          match callback with
          | AwaitsEmbedding chunk batchIndex =>
              Some (Insert (chunkId data (i + batchIndex))
                      (chunk_metadata filePath data (i + batchIndex) chunk))
          | AwaitsInsert _ => None
          end)
       pending.

(** The answers the pending callbacks still wait for: two for a callback
    that awaits its embedding, one for a callback that awaits the store. *)
Fixpoint steps_left (pending : list Callback) : nat :=
  match pending with
  | [] => 0
  | AwaitsEmbedding _ _ :: rest => 2 + steps_left rest
  | AwaitsInsert _ :: rest => 1 + steps_left rest
  end.

(** Consecutive groups of [size] elements; the last one may be shorter. *)
Fixpoint batches_of {A} (fuel size : nat) (l : list A) : list (list A) :=
  match fuel, l with
  | S fuel', _ :: _ => firstn size l :: batches_of fuel' size (skipn size l)
  | _, _ => []
  end.

(** The events of the specification for a list of batches: the inserts of
    each batch in order, and one delay between two batches. *)
Fixpoint schedule (filePath : string) (data : ExtractedUnit) (idx : Z)
    (batches : list (list Chunk)) : list Event :=
  match batches with
  | [] => []
  | b :: rest =>
      batch_events filePath data idx b
      ++ (match rest with [] => [] | _ => [Delay 100] end)
      ++ schedule filePath data (idx + Z.of_nat (length b)) rest
  end.

Definition is_delay (e : Event) : bool :=
  match e with Delay _ => true | Insert _ _ => false end.

Definition inserted_ids (es : list Event) : list string :=
  omap (fun e => match e with Insert id _ => Some id | Delay _ => None end) es.

Definition inserted_metadata (es : list Event) : list Metadata :=
  omap (fun e => match e with Insert _ m => Some m | Delay _ => None end) es.

(** The chunks [indexDocument] makes of a unit (default parameters). *)
Definition unit_chunks (data : ExtractedUnit) : list Chunk :=
  match splitIntoChunks (length (JS.split_ws (u_text data))) (u_text data)
          default_chunkSize default_overlap with
  | Ok chunks => chunks
  | _ => []
  end.





(** The events of a run that goes through [batches], the first of which
    begins at chunk number [idx]: the inserts of each batch, in the order
    the answers came in, and one delay of 100 ms before each further
    batch. *)
Fixpoint performs (filePath : string) (data : ExtractedUnit) (idx : Z)
    (batches : list (list Chunk)) (events : list Event) : Prop :=
  match batches with
  | [] => events = []
  | b :: rest =>
      exists inserts events',
        events =
          inserts ++ (match rest with [] => [] | _ => [Delay 100] end) ++ events'
        /\ inserts ≡ₚ batch_events filePath data idx b
        /\ performs filePath data (idx + Z.of_nat (length b)) rest events'
  end.

(** The events of a run that fails in one of the [batches]: the batches
    before it are performed, each followed by its delay, some of the
    inserts of the failing batch are made, and nothing follows. *)
Fixpoint breaks_off (filePath : string) (data : ExtractedUnit) (idx : Z)
    (batches : list (list Chunk)) (events : list Event) : Prop :=
  match batches with
  | [] => False
  | b :: rest =>
      events ⊆+ batch_events filePath data idx b
      \/ exists inserts events',
           rest <> []
           /\ events = inserts ++ Delay 100 :: events'
           /\ inserts ≡ₚ batch_events filePath data idx b
           /\ breaks_off filePath data (idx + Z.of_nat (length b)) rest events'
  end.

(** A run of [m] from [st] adds to the trace the events [X], in some
    order, when it returns, and some of them when it does not. *)
Definition emits {W A} (m : M W A) (st : State W) (X : list Event) : Prop :=
  exists new,
    trace (snd (m st)) = trace st ++ new
    /\ match fst (m st) with
       | Ok _ => new ≡ₚ X
       | _ => new ⊆+ X
       end.

(** Operations that leave the trace alone. *)
Definition silent {W A} (m : M W A) : Prop :=
  forall st, trace (snd (m st)) = trace st.

(** Operations that return. *)
Definition succeeds {W A} (m : M W A) (st : State W) : Prop :=
  exists a st', m st = (Ok a, st').


(** An inserted item whose preview is the first 150 characters of its
    text and an ellipsis. *)
Definition preview_ok (e : Event) : Prop :=
  match e with
  | Insert _ m => m_preview m = String.append (JS.substring0 150 (m_text m)) "..."
  | Delay _ => True
  end.

(** ** Collaborators of the worked examples *)

(** A store that keeps its items in a list and answers every query with
    fixed candidates, next to a provider and readers that never fail. *)
Record demo_world := mkDemo {
  demo_items : list Item;
  demo_candidates : list QueryResult
}.

Definition demo_collaborators : Collaborators demo_world :=
  {| createIndex := fun w => (Ok tt, w);
     insertItem := fun it w =>
       (Ok tt, mkDemo (demo_items w ++ [it]) (demo_candidates w));
     queryItems := fun _ _ w => (Ok (demo_candidates w), w);
     listItems := fun w => (Ok (demo_items w), w);
     embeddings_create := fun _ w => (Ok [], w);
     read_pdf := fun _ w => (Ok "alpha beta gamma", w);
     read_docx := fun _ w => (Ok "alpha beta gamma", w);
     read_utf8 := fun _ w => (Ok "alpha beta gamma", w);
     XLSX_readFile := fun _ w => (Ok (mkWorkbook [] ∅), w);
     path_extname := fun _ => ".txt";
     path_basename := fun p => p;
     next_answer := fun _ _ => 0%nat |}.

(** A store whose directory cannot be created, and whose listing fails. *)
Definition locked_collaborators : Collaborators unit :=
  {| createIndex := fun w => (Throw (mkError "EACCES: permission denied"), w);
     insertItem := fun _ w => (Throw (mkError "EACCES: permission denied"), w);
     queryItems := fun _ _ w => (Throw (mkError "EACCES: permission denied"), w);
     listItems := fun w => (Throw (mkError "Index does not exist"), w);
     embeddings_create := fun _ w => (Ok [], w);
     read_pdf := fun _ w => (Ok "", w);
     read_docx := fun _ w => (Ok "", w);
     read_utf8 := fun _ w => (Ok "", w);
     XLSX_readFile := fun _ w => (Ok (mkWorkbook [] ∅), w);
     path_extname := fun _ => ".txt";
     path_basename := fun p => p;
     next_answer := fun _ _ => 0%nat |}.

Definition login_candidates : list QueryResult :=
  [mk_candidate (9 # 10) "sign out"; mk_candidate (1 # 2) "user login";
   mk_candidate (1 # 10) "Login page"].

(** A reader of a two-sheet workbook, with a header row and one
    requirement row in each sheet. *)
Definition demo_sheet : Worksheet :=
  mkWorksheet (Some (mkRange 0 0 1 1))
    (list_to_map [((0, 0), VString "id"); ((0, 1), VString "text");
                  ((1, 0), VNumber 7); ((1, 1), VString "the user shall log in")]).




(** A workbook whose only sheet has the empty name. *)
Definition nameless_workbook : Workbook :=
  mkWorkbook [EmptyString] (list_to_map [(EmptyString, demo_sheet)]).

Definition nameless_collaborators : Collaborators unit :=
  {| createIndex := fun w => (Ok tt, w);
     insertItem := fun _ w => (Ok tt, w);
     queryItems := fun _ _ w => (Ok [], w);
     listItems := fun w => (Ok [], w);
     embeddings_create := fun _ w => (Ok [], w);
     read_pdf := fun _ w => (Ok "", w);
     read_docx := fun _ w => (Ok "", w);
     read_utf8 := fun _ w => (Ok "", w);
     XLSX_readFile := fun _ w => (Ok nameless_workbook, w);
     path_extname := fun _ => ".xlsx";
     path_basename := fun _ => "book.xlsx";
     next_answer := fun _ _ => 0%nat |}.


(** A provider and a store that answer every call, the call made last
    first. *)
Definition unordered_collaborators : Collaborators unit :=
  {| createIndex := fun w => (Ok tt, w);
     insertItem := fun _ w => (Ok tt, w);
     queryItems := fun _ _ w => (Ok [], w);
     listItems := fun w => (Ok [], w);
     embeddings_create := fun _ w => (Ok [], w);
     read_pdf := fun _ w => (Ok "", w);
     read_docx := fun _ w => (Ok "", w);
     read_utf8 := fun _ w => (Ok "", w);
     XLSX_readFile := fun _ w => (Ok (mkWorkbook [] ∅), w);
     path_extname := fun _ => ".txt";
     path_basename := fun p => p;
     next_answer := fun n _ => (n - 1)%nat |}.

(** A unit of 2300 words: six chunks, in two batches. *)
Definition long_unit : ExtractedUnit :=
  mkUnit (words_text 2300) "long.txt" plain None None None.

Definition demo_unit : ExtractedUnit :=
  mkUnit "alpha beta gamma" "notes.txt" plain None None None.

Definition fresh_engine : Engine :=
  {| indexPath := "./requirements-index"; isInitialized := false; debugMode := false |}.

Definition ready_engine : Engine :=
  {| indexPath := "./requirements-index"; isInitialized := true; debugMode := false |}.


(** ** Lifecycle and diagnostics of the engine *)

(** The collaborators of the lifecycle operations: the store's
    [deleteIndex], the directory copy of [fs-extra] and the clock. *)
Class Lifecycle (W : Type) := {
  deleteIndex : W -> result unit * W;
  fs_copy : string -> string -> W -> result unit * W;
  Date_now : W -> Z
}.

Record BackupInfo := mkBackupInfo {
  originalPath : string;
  backupPath : string;
  timestamp : Z
}.

(** An element of the answer of [findExactText]. *)
Record TextMatch := mkTextMatch {
  tm_fileName : string;
  tm_chunkIndex : Z;
  tm_text : string;
  tm_preview : string;
  tm_type : DocType;
  tm_sheet : option string;
  tm_row : option Z;
  tm_id : string
}.

(** The report of [analyzeSearch]. *)
Record Analysis := mkAnalysis {
  an_query : string;
  an_totalResults : Z;
  an_filesRepresented : Z;
  an_withTextMatches : Z;
  an_withoutTextMatches : Z;
  an_fileGroups : gmap string (list SearchResult);
  an_results : list SearchResult
}.

Definition set_debugMode {W} (enabled : bool) : M W unit :=
  fun st =>
    let e := engine st in
    (Ok tt, mkState (mkEngine (indexPath e) (isInitialized e) enabled)
                    (world st) (trace st)).

(** The test and the projection of the [forEach] of [findExactText]. *)
Definition exact_match (searchText : string) (caseSensitive : bool)
    (item : Item) : bool :=
  let text :=
    if caseSensitive then m_text (item_metadata item)
    else JS.toLowerCase (m_text (item_metadata item)) in
  let search :=
    if caseSensitive then searchText else JS.toLowerCase searchText in
  JS.includes text search.

Definition match_of_item (item : Item) : TextMatch :=
  {| tm_fileName := m_fileName (item_metadata item);
     tm_chunkIndex := m_chunkIndex (item_metadata item);
     tm_text := m_text (item_metadata item);
     tm_preview := m_preview (item_metadata item);
     tm_type := m_type (item_metadata item);
     tm_sheet := m_sheet (item_metadata item);
     tm_row := m_row (item_metadata item);
     tm_id := item_id item |}.

Definition collect_match (searchText : string) (caseSensitive : bool)
    (matches : list TextMatch) (item : Item) : list TextMatch :=
  if exact_match searchText caseSensitive item
  then matches ++ [match_of_item item]
  else matches.

(** The names an object literal inherits from [Object.prototype]: a read
    of [fileGroups[name]] finds them although the object has no such key
    of its own. *)
Definition prototype_keys : list string :=
  ["constructor"; "__defineGetter__"; "__defineSetter__"; "hasOwnProperty";
   "__lookupGetter__"; "__lookupSetter__"; "isPrototypeOf";
   "propertyIsEnumerable"; "toString"; "valueOf"; "__proto__";
   "toLocaleString"].

Definition is_prototype_key (k : string) : bool :=
  existsb (String.eqb k) prototype_keys.

(** The body of the grouping [forEach] of [analyzeSearch]: an inherited
    value is truthy, so no array is created, and calling its missing
    [push] is a [TypeError]. *)
Definition group_step (fileGroups : gmap string (list SearchResult))
    (r : SearchResult) : result (gmap string (list SearchResult)) :=
  match fileGroups !! fileName r with
  | Some group => Ok (<[fileName r := group ++ [r]]> fileGroups)
  | None =>
      if is_prototype_key (fileName r)
      then Throw (mkError "fileGroups[result.fileName].push is not a function")
      else Ok (<[fileName r := [r]]> fileGroups)
  end.

Fixpoint group_results (fileGroups : gmap string (list SearchResult))
    (results : list SearchResult) : result (gmap string (list SearchResult)) :=
  match results with
  | [] => Ok fileGroups
  | r :: rest =>
      match group_step fileGroups r with
      | Ok fileGroups' => group_results fileGroups' rest
      | other => other
      end
  end.

Section Diagnostics.
Context {W : Type} {C : Collaborators W} {L : Lifecycle W}.

Definition setDebugMode (enabled : bool) : M W unit := set_debugMode enabled.

Definition clearIndex : M W unit :=
  try_catch
    (do _ <- lift_world deleteIndex; set_initialized false)
    (fun error =>
       if negb (JS.includes (message error) "does not exist")
       then throw error
       else ret tt).

Definition backupIndex (backupPath : string) : M W BackupInfo :=
  do e <- get_engine;
  do timestamp <- (fun st => (Ok (Date_now (world st)), st));
  try_catch
    (do _ <- lift_world (fs_copy (indexPath e) backupPath);
     ret {| originalPath := indexPath e;
            backupPath := backupPath;
            timestamp := timestamp |})
    (fun error =>
       throw (mkError (String.append "Backup failed: " (message error)))).

Definition restoreIndex (backupPath : string) : M W Stats :=
  try_catch
    (do _ <- clearIndex;
     do e <- get_engine;
     do _ <- lift_world (fs_copy backupPath (indexPath e));
     do _ <- set_initialized false;
     do _ <- initialize;
     getStats)
    (fun error =>
       throw (mkError (String.append "Restore failed: " (message error)))).

Definition findExactText (searchText : string) (caseSensitive : bool)
  : M W (list TextMatch) :=
  do _ <- initialize;
  do allItems <- lift_world listItems;
  ret (fold_left (collect_match searchText caseSensitive) allItems []).

Definition analyzeSearch (query : string) (options : SearchOptions)
  : M W Analysis :=
  do results <- search query 20
                  {| includeTextMatches := true; minScore := minScore options |};
  do fileGroups <- lift_result (group_results ∅ results);
  let withTextMatches := List.filter hasDirectMatch results in
  let withoutTextMatches :=
    List.filter (fun r => negb (hasDirectMatch r)) results in
  ret {| an_query := query;
         an_totalResults := Z.of_nat (length results);
         an_filesRepresented := Z.of_nat (size fileGroups);
         an_withTextMatches := Z.of_nat (length withTextMatches);
         an_withoutTextMatches := Z.of_nat (length withoutTextMatches);
         an_fileGroups := fileGroups;
         an_results := results |}.
End Diagnostics.

(** ** The indexing loop of the command line *)

Record IndexSummary := mkSummary {
  successCount : Z;
  errorCount : Z;
  summary_totalChunks : Z
}.

Section CommandLine.
Context {W : Type} {C : Collaborators W}.

(** The loop over [files] of [indexCommand]: a file whose indexing
    throws is counted and the loop goes on with the next one. *)
Fixpoint index_files (files : list string) (acc : IndexSummary)
  : M W IndexSummary :=
  match files with
  | [] => ret acc
  | file :: rest =>
      do acc' <-
        try_catch
          (do result <- indexDocument file;
           ret {| successCount := successCount acc + 1;
                  errorCount := errorCount acc;
                  summary_totalChunks :=
                    summary_totalChunks acc + chunksCreated result |})
          (fun _ =>
             ret {| successCount := successCount acc;
                    errorCount := errorCount acc + 1;
                    summary_totalChunks := summary_totalChunks acc |});
      index_files rest acc'
  end.
End CommandLine.

(** ** Collaborators of the lifecycle examples *)

Definition demo_lifecycle : Lifecycle demo_world :=
  {| deleteIndex := fun w => (Ok tt, mkDemo [] (demo_candidates w));
     fs_copy := fun _ _ w => (Ok tt, w);
     Date_now := fun _ => 1700000000000 |}.

(** A store without an index directory. *)
Definition locked_lifecycle : Lifecycle unit :=
  {| deleteIndex := fun w => (Throw (mkError "Index does not exist"), w);
     fs_copy := fun _ _ w => (Throw (mkError "ENOENT: no such file or directory"), w);
     Date_now := fun _ => 1700000000000 |}.

Definition demo_item (id name t : string) : Item :=
  {| item_id := id;
     item_vector := [];
     item_metadata :=
       {| m_fileName := name; m_filePath := name;
          m_chunkIndex := 0; m_text := t; m_wordCount := 0;
          m_preview := String.append (JS.substring0 150 t) "...";
          m_type := plain; m_sheet := None; m_row := None; m_rowRange := None;
          m_originalTextLength := 0; m_chunkStartIndex := 0 |} |}.

(** A store that answers with a chunk of a file named "toString". *)
Definition inherited_name_state : State demo_world :=
  mkState ready_engine
    (mkDemo [] [mkQueryResult (1 # 2)
                  (demo_item "toString_chunk_0" "toString" "login")])
    [].

Definition demo_items_two_files : list Item :=
  [demo_item "a.txt_chunk_0" "a.txt" "The User shall log in";
   demo_item "b.txt_chunk_0" "b.txt" "Reports are exported";
   demo_item "a.txt_chunk_1" "a.txt" "the user may log out"].

(** Operations that leave the engine record alone. *)
Definition keeps_engine {W A} (m : M W A) : Prop :=
  forall st, engine (snd (m st)) = engine st.

(** Operations that end: they return or throw, the iteration bound of the
    model is not reached. *)
Definition ends {W A} (m : M W A) : Prop :=
  forall st, fst (m st) <> OutOfFuel.

(** Collaborators whose calls come back, with an answer or an error. *)
Definition collaborators_end {W} (C : Collaborators W) : Prop :=
  (forall w, fst (createIndex w) <> OutOfFuel)
  /\ (forall it w, fst (insertItem it w) <> OutOfFuel)
  /\ (forall t w, fst (embeddings_create t w) <> OutOfFuel)
  /\ (forall p w, fst (read_pdf p w) <> OutOfFuel)
  /\ (forall p w, fst (read_docx p w) <> OutOfFuel)
  /\ (forall p w, fst (read_utf8 p w) <> OutOfFuel)
  /\ (forall p w, fst (XLSX_readFile p w) <> OutOfFuel).

(** Readers of a directory of comma-separated files. *)
Definition csv_collaborators : Collaborators unit :=
  {| createIndex := fun w => (Ok tt, w);
     insertItem := fun _ w => (Ok tt, w);
     queryItems := fun _ _ w => (Ok [], w);
     listItems := fun w => (Ok [], w);
     embeddings_create := fun _ w => (Ok [], w);
     read_pdf := fun _ w => (Ok "", w);
     read_docx := fun _ w => (Ok "", w);
     read_utf8 := fun _ w => (Ok "1,2,3", w);
     XLSX_readFile := fun _ w => (Ok (mkWorkbook [] ∅), w);
     path_extname := fun _ => ".CSV";
     path_basename := fun p => p;
     next_answer := fun _ _ => 0%nat |}.

(** A provider that fails on every call, after readers that answer. *)
Definition offline_collaborators : Collaborators unit :=
  {| createIndex := fun w => (Ok tt, w);
     insertItem := fun _ w => (Ok tt, w);
     queryItems := fun _ _ w => (Ok [], w);
     listItems := fun w => (Ok [], w);
     embeddings_create := fun _ w => (Throw (mkError "Connection error."), w);
     read_pdf := fun _ w => (Ok "alpha beta gamma", w);
     read_docx := fun _ w => (Ok "alpha beta gamma", w);
     read_utf8 := fun _ w => (Ok "alpha beta gamma", w);
     XLSX_readFile := fun _ w => (Ok (mkWorkbook [] ∅), w);
     path_extname := fun _ => ".txt";
     path_basename := fun p => p;
     next_answer := fun _ _ => 0%nat |}.

(** A sheet whose second row holds only a zero and an empty string. *)
Definition zero_row_sheet : Worksheet :=
  mkWorksheet (Some (mkRange 0 0 1 1))
    (list_to_map [((0, 0), VString "id"); ((0, 1), VString "text");
                  ((1, 0), VNumber 0); ((1, 1), VString "")]).

(** ** The document finder of the command line *)

(** [s.split(sep)] for a separator of one character. *)
Fixpoint split_on (sep : ascii) (s : string) : list string :=
  match s with
  | EmptyString => [EmptyString]
  | String c s' =>
      if Ascii.eqb c sep then EmptyString :: split_on sep s'
      else
        match split_on sep s' with
        | w :: ws => String c w :: ws
        | [] => [String c EmptyString]
        end
  end.

(** The file system as [findDocuments] reads it: [glob.sync] of a pattern
    under a directory, and [fs.stat] followed by [isFile()], [None] when
    [stat] throws. *)
Class FileSystem (W : Type) := {
  glob_sync : string -> string -> W -> result (list string);
  stat_isFile : string -> W -> option bool
}.

Definition extensions_of (fileTypes : string) : list string :=
  map (fun ext => JS.toLowerCase (JS.trim ext)) (split_on "," fileTypes).

Definition pattern_of (recursive : bool) (ext : string) : string :=
  if recursive then String.append "**/*." ext else String.append "*." ext.

Section Finder.
Context {W : Type} {F : FileSystem W}.

(** The loop [for (const pattern of patterns)]. *)
Fixpoint glob_all (patterns : list string) (directory : string) (w : W)
    (files : list string) : result (list string) :=
  match patterns with
  | [] => Ok files
  | pattern :: rest =>
      match glob_sync pattern directory w with
      | Ok matches => glob_all rest directory w (files ++ matches)
      | other => other
      end
  end.

(** The loop [for (const file of uniqueFiles)]. *)
Definition existing (w : W) (uniqueFiles : list string) : list string :=
  List.filter
    (fun file =>
       match stat_isFile file w with
       | Some isFile => isFile
       | None => false
       end)
    uniqueFiles.

Definition findDocuments (directory : string) (recursive : bool)
    (fileTypes : string) (w : W) : result (list string) :=
  let extensions := extensions_of fileTypes in
  let patterns := map (pattern_of recursive) extensions in
  match glob_all patterns directory w [] with
  | Ok files => Ok (existing w (uniq files))
  | other => other
  end.
End Finder.

(** A directory with two PDF files, one of them gone by the time it is
    looked at, and a note that both patterns match. *)
Definition demo_files : FileSystem unit :=
  {| glob_sync := fun pattern _ _ =>
       if String.eqb pattern "*.pdf"
       then Ok ["/docs/a.pdf"; "/docs/b.pdf"; "/docs/notes.md"]
       else if String.eqb pattern "*.md" then Ok ["/docs/notes.md"]
       else Ok [];
     stat_isFile := fun file _ =>
       if String.eqb file "/docs/b.pdf" then None else Some true |}.

(** * Properties *)

(** ** Strings *)

Lemma trimStart_empty s : JS.trimStart s = EmptyString <-> all_space s = true.
Proof.
  induction s as [|c s IH]; simpl; [tauto|].
  destruct (JS.is_space c); simpl; [exact IH|].
  split; discriminate.
Qed.

Lemma trimStart_all_space s : all_space (JS.trimStart s) = all_space s.
Proof.
  induction s as [|c s IH]; simpl; [reflexivity|].
  destruct (JS.is_space c) eqn:E; simpl; [exact IH|].
  rewrite E. reflexivity.
Qed.

Lemma trimEnd_empty s : JS.trimEnd s = EmptyString <-> all_space s = true.
Proof.
  induction s as [|c s IH]; simpl; [tauto|].
  destruct (JS.trimEnd s) eqn:E.
  - destruct (JS.is_space c); simpl.
    + split; [intros _; apply IH; reflexivity | reflexivity].
    + split; discriminate.
  - split; [discriminate|].
    intros H. apply andb_true_iff in H as [_ H].
    apply IH in H. discriminate.
Qed.

Lemma trim_empty s : JS.trim s = EmptyString <-> all_space s = true.
Proof.
  unfold JS.trim. rewrite trimEnd_empty, trimStart_all_space. reflexivity.
Qed.

Lemma all_space_append s t :
  all_space (String.append s t) = all_space s && all_space t.
Proof.
  induction s as [|c s IH]; simpl; [reflexivity|].
  rewrite IH, andb_assoc. reflexivity.
Qed.

Lemma all_space_no_space s :
  no_space s = true -> all_space s = is_empty_string s.
Proof.
  destruct s as [|c s]; simpl; [reflexivity|].
  intros H. apply andb_true_iff in H as [H _].
  apply negb_true_iff in H. rewrite H. reflexivity.
Qed.

Lemma all_space_join ws :
  Forall (fun w => no_space w = true) ws ->
  all_space (JS.join " " ws) = forallb is_empty_string ws.
Proof.
  induction 1 as [|w ws Hw Hws IH]; [reflexivity|].
  destruct ws as [|w' ws'].
  - simpl. rewrite andb_true_r. apply all_space_no_space, Hw.
  - change (JS.join " " (w :: w' :: ws'))
      with (String.append w (String.append " " (JS.join " " (w' :: ws')))).
    rewrite !all_space_append, IH.
    rewrite (all_space_no_space w Hw). reflexivity.
Qed.

Lemma length_zero_empty s : Nat.eqb (String.length s) 0 = is_empty_string s.
Proof. destruct s; reflexivity. Qed.

Lemma is_empty_string_spec s : is_empty_string s = true <-> s = EmptyString.
Proof. destruct s; simpl; split; congruence. Qed.

(** ** Whitespace splitting *)

Lemma split_ws_step c s :
  JS.split_ws (String c s) =
    if JS.is_space c then
      if starts_space s then JS.split_ws s else EmptyString :: JS.split_ws s
    else
      match JS.split_ws s with
      | w :: ws => String c w :: ws
      | [] => [String c EmptyString]
      end.
Proof. destruct s; reflexivity. Qed.

Lemma split_ws_cons s : exists w ws, JS.split_ws s = w :: ws.
Proof.
  induction s as [|c s IH]; [simpl; eauto|].
  rewrite split_ws_step.
  destruct IH as (w & ws & E). rewrite E.
  destruct (JS.is_space c), (starts_space s); eauto.
Qed.

Lemma split_ws_length_pos s : (0 < length (JS.split_ws s))%nat.
Proof. destruct (split_ws_cons s) as (w & ws & E). rewrite E. simpl. lia. Qed.

Lemma split_ws_no_space s :
  Forall (fun w => no_space w = true) (JS.split_ws s).
Proof.
  induction s as [|c s IH]; [repeat constructor|].
  rewrite split_ws_step.
  destruct (JS.is_space c) eqn:Ec.
  - destruct (starts_space s); [exact IH|]. constructor; [reflexivity|exact IH].
  - destruct (JS.split_ws s) as [|w ws]; [repeat constructor; simpl; rewrite Ec; reflexivity|].
    inversion IH; subst. constructor; [|assumption].
    simpl. rewrite Ec. simpl. assumption.
Qed.

(** The first piece is empty only when the string is empty or begins with
    whitespace. *)
Lemma split_ws_head s w ws :
  JS.split_ws s = w :: ws -> w = EmptyString ->
  s = EmptyString \/ starts_space s = true.
Proof.
  destruct s as [|c s]; [auto|].
  rewrite split_ws_step. simpl.
  destruct (JS.is_space c); [auto|].
  destruct (JS.split_ws s); intros E; inversion E; subst; discriminate.
Qed.

(** Only the first and the last piece of a split can be empty. *)
Lemma split_ws_interior s (j : nat) w :
  (0 < j)%nat -> (S j < length (JS.split_ws s))%nat ->
  JS.split_ws s !! j = Some w -> w <> EmptyString.
Proof.
  revert j w. induction s as [|c s IH]; intros j w Hj Hlen Hw.
  - simpl in Hlen. lia.
  - rewrite split_ws_step in Hlen, Hw.
    destruct (JS.is_space c).
    + destruct (starts_space s) eqn:Es; [eauto|].
      destruct j as [|j]; [lia|]. simpl in Hw, Hlen.
      destruct j as [|j].
      * intros ->. destruct (JS.split_ws s) as [|w0 ws] eqn:E; [discriminate|].
        simpl in Hw. inversion Hw; subst.
        destruct (split_ws_head s _ _ E eq_refl) as [-> | Hs]; [|congruence].
        simpl in E. inversion E; subst. simpl in Hlen. lia.
      * apply (IH (S j)); [lia|lia|exact Hw].
    + destruct (JS.split_ws s) as [|w0 ws] eqn:E.
      * simpl in Hlen. lia.
      * destruct j as [|j]; [lia|]. apply (IH (S j)); [lia|exact Hlen|exact Hw].
Qed.

(** The split has one piece for each word, and one more, empty, for
    whitespace at the start and for whitespace at the end. *)
Lemma split_ws_length s :
  s <> EmptyString ->
  length (JS.split_ws s) =
    (count_words s + (if starts_space s then 1 else 0)
     + (if ends_space s then 1 else 0))%nat.
Proof.
  induction s as [|c s IH]; [congruence|]. intros _.
  rewrite split_ws_step.
  destruct s as [|c' s'].
  - simpl. destruct (JS.is_space c); reflexivity.
  - specialize (IH ltac:(discriminate)).
    set (s := String c' s') in *.
    assert (Hends : ends_space (String c s) = ends_space s) by reflexivity.
    assert (Hword : starts_word s = negb (starts_space s)) by reflexivity.
    rewrite Hends. cbn [count_words starts_space]. rewrite Hword.
    clearbody s.
    destruct (JS.is_space c).
    + destruct (starts_space s); cbn [length]; lia.
    + pose proof (split_ws_length_pos s) as Hpos.
      destruct (JS.split_ws s) as [|w ws]; [simpl in Hpos; lia|].
      cbn [length] in *. destruct (starts_space s); cbn [negb]; lia.
Qed.

(** ** [Array.prototype.slice] *)

Lemma slice_sublist {A} (l : list A) (o c : Z) :
  0 <= o -> 0 <= c ->
  JS.slice l o (o + c) =
    firstn (Z.to_nat (Z.min (o + c) (Z.of_nat (length l)) - o)) (skipn (Z.to_nat o) l).
Proof.
  intros Ho Hc. unfold JS.slice, JS.rel_index.
  destruct (Z.ltb_spec o 0); [lia|].
  destruct (Z.ltb_spec (o + c) 0); [lia|].
  destruct (Z.le_gt_cases o (Z.of_nat (length l))) as [Hle|Hgt].
  - rewrite (Z.min_l o) by lia. reflexivity.
  - rewrite (Z.min_r o) by lia.
    rewrite !skipn_all2 by lia. rewrite !firstn_nil. reflexivity.
Qed.

Lemma slice_lookup {A} (l : list A) (o c : Z) (j : nat) :
  0 <= o -> 0 <= c -> o <= Z.of_nat j < o + c ->
  JS.slice l o (o + c) !! (j - Z.to_nat o)%nat = l !! j.
Proof.
  intros Ho Hc Hj. rewrite slice_sublist by lia.
  destruct (Z.lt_ge_cases (Z.of_nat j) (Z.of_nat (length l))) as [Hlt|Hge].
  - rewrite lookup_take_lt by lia. rewrite lookup_drop. f_equal. lia.
  - rewrite (lookup_ge_None_2 l j) by lia.
    apply lookup_ge_None_2. rewrite length_take, length_drop. lia.
Qed.

Lemma slice_prefix {A} (l : list A) (k : Z) :
  exists m : nat, JS.slice l 0 k = firstn m l.
Proof.
  unfold JS.slice.
  assert (E : JS.rel_index (Z.of_nat (length l)) 0 = 0)
    by (unfold JS.rel_index; simpl; lia).
  rewrite E. simpl. eauto.
Qed.

(** ** 4.1 The chunker *)

Lemma trim_is_empty s : is_empty_string (JS.trim s) = all_space s.
Proof.
  apply eq_true_iff_eq. rewrite is_empty_string_spec. apply trim_empty.
Qed.

Lemma filter_all {A} (f : A -> bool) (l : list A) :
  (forall x, In x l -> f x = true) -> List.filter f l = l.
Proof.
  induction l as [|x l IH]; intros H; [reflexivity|].
  simpl. rewrite (H x) by (left; reflexivity).
  f_equal. apply IH. intros y Hy. apply H. right. exact Hy.
Qed.

Lemma ceil_div_step (m s : Z) :
  0 < s -> 0 < m -> Z.to_nat (ceil_div m s) = S (Z.to_nat (ceil_div (m - s) s)).
Proof.
  intros Hs Hm. unfold ceil_div.
  replace (m + s - 1) with ((m - s + s - 1) + 1 * s) by lia.
  rewrite Z.div_add by lia.
  assert (0 <= (m - s + s - 1) / s) by (apply Z.div_pos; lia).
  lia.
Qed.

Lemma ceil_div_nonpos (m s : Z) :
  0 < s -> m <= 0 -> Z.to_nat (ceil_div m s) = 0%nat.
Proof.
  intros Hs Hm. unfold ceil_div.
  assert ((m + s - 1) / s < 1) by (apply Z.div_lt_upper_bound; lia).
  lia.
Qed.

Lemma ceil_div_le (m s : Z) : 0 < s -> 0 <= m -> ceil_div m s <= m.
Proof.
  intros Hs Hm. unfold ceil_div.
  assert ((m + s - 1) / s < m + 1) by (apply Z.div_lt_upper_bound; nia).
  lia.
Qed.

Lemma offsets_spec (n stride o : Z) :
  0 < stride ->
  In o (offsets n stride) <-> exists k : nat, o = Z.of_nat k * stride /\ o < n.
Proof.
  intros Hs. unfold offsets. rewrite in_map_iff.
  pose proof (Z.div_mod (n + stride - 1) stride ltac:(lia)) as Hdm.
  pose proof (Z.mod_pos_bound (n + stride - 1) stride Hs) as Hmod.
  split.
  - intros (k & <- & Hk). apply in_seq in Hk. exists k. split; [reflexivity|]. nia.
  - intros (k & -> & Hk). exists k. split; [reflexivity|]. apply in_seq. nia.
Qed.

Section ChunkerFacts.
Variables (words : list string) (chunkSize overlap : Z).
Let n := Z.of_nat (length words).
Let stride := chunkSize - overlap.

(** The counters of [k] consecutive iterations that start at [i]. *)
Let counters (i : Z) (k : nat) : list Z :=
  map (fun j => i + Z.of_nat j * stride) (seq 0 k).

Lemma counters_S i k : counters i (S k) = i :: counters (i + stride) k.
Proof.
  unfold counters. simpl. f_equal; [lia|].
  rewrite <- seq_shift, map_map. apply map_ext. intros j. lia.
Qed.

Lemma run_loop_counters (fuel : nat) :
  0 < stride ->
  forall i acc,
    (Z.to_nat (ceil_div (n - i) stride) <= fuel)%nat ->
    run_loop words chunkSize overlap fuel (mkLoop i acc) =
      Ok (acc ++ map (window words chunkSize)
                    (List.filter (nonblank words chunkSize)
                       (counters i (Z.to_nat (ceil_div (n - i) stride))))).
Proof.
  intros Hs. induction fuel as [|fuel IH]; intros i acc Hfuel.
  - simpl. unfold loop_cond. simpl. fold n.
    destruct (Z.ltb_spec i n) as [Hlt|Hge].
    + rewrite (ceil_div_step (n - i) stride) in Hfuel by lia. lia.
    + rewrite ceil_div_nonpos by lia. simpl. rewrite app_nil_r. reflexivity.
  - cbn [run_loop]. unfold loop_cond. cbn [loop_i]. fold n.
    destruct (Z.ltb_spec i n) as [Hlt|Hge].
    + rewrite (ceil_div_step (n - i) stride) in * by lia.
      rewrite counters_S.
      unfold loop_body. cbn [loop_i loop_chunks]. fold stride.
      replace (n - i - stride) with (n - (i + stride)) in * by lia.
      rewrite IH by lia. cbn [List.filter].
      destruct (nonblank words chunkSize i); cbn [map];
        [rewrite <- app_assoc|]; reflexivity.
    + rewrite ceil_div_nonpos by lia. simpl. rewrite app_nil_r. reflexivity.
Qed.

Lemma run_loop_offsets (fuel : nat) :
  0 < stride -> (length words <= fuel)%nat ->
  run_loop words chunkSize overlap fuel (mkLoop 0 []) =
    Ok (map (window words chunkSize)
          (List.filter (nonblank words chunkSize) (offsets n stride))).
Proof.
  intros Hs Hfuel.
  pose proof (ceil_div_le n stride Hs ltac:(lia)) as Hle.
  rewrite run_loop_counters by (rewrite ?Z.sub_0_r; first [assumption | lia]).
  rewrite Z.sub_0_r. reflexivity.
Qed.

Lemma nonblank_spec i :
  Forall (fun w => no_space w = true) words ->
  nonblank words chunkSize i =
    negb (forallb is_empty_string (JS.slice words i (i + chunkSize))).
Proof.
  intros Hw. unfold nonblank, window. simpl.
  rewrite length_zero_empty, trim_is_empty, all_space_join; [reflexivity|].
  unfold JS.slice. apply Forall_take, Forall_drop, Hw.
Qed.

(** A window that holds a non-empty word is kept. *)
Lemma nonblank_lookup i (j : nat) w :
  Forall (fun w => no_space w = true) words ->
  0 <= i -> 0 <= chunkSize -> i <= Z.of_nat j < i + chunkSize ->
  words !! j = Some w -> w <> EmptyString ->
  nonblank words chunkSize i = true.
Proof.
  intros Hw Hi Hc Hj Hlook Hne. rewrite nonblank_spec by assumption.
  apply negb_true_iff, not_true_is_false. intros Hall.
  rewrite forallb_forall in Hall.
  apply Hne, is_empty_string_spec, Hall.
  apply list_elem_of_In, (list_elem_of_lookup_2 _ (j - Z.to_nat i)%nat).
  rewrite slice_lookup by assumption. exact Hlook.
Qed.
End ChunkerFacts.

Lemma windows_all_kept (words : list string) (chunkSize stride : Z) :
  Forall (fun w => no_space w = true) words ->
  0 < stride -> 0 < chunkSize -> Forall (fun w => w <> EmptyString) words ->
  List.filter (nonblank words chunkSize) (offsets (Z.of_nat (length words)) stride) =
    offsets (Z.of_nat (length words)) stride.
Proof.
  intros Hns Hs Hc Hne. apply filter_all. intros o Ho.
  apply offsets_spec in Ho as (k & -> & Hk); [|exact Hs].
  assert (Hk0 : 0 <= Z.of_nat k * stride) by nia.
  set (j := Z.to_nat (Z.of_nat k * stride)).
  assert (Hj : Z.of_nat j = Z.of_nat k * stride) by (apply Z2Nat.id; exact Hk0).
  clearbody j. rewrite <- Hj in *.
  destruct (lookup_lt_is_Some_2 words j) as [w Hw]; [lia|].
  apply (nonblank_lookup words chunkSize _ j w); try assumption; try lia.
  rewrite Forall_forall in Hne. apply Hne.
  apply (list_elem_of_lookup_2 _ j). exact Hw.
Qed.

(** C1 (as the code has it).  With a positive stride the loop returns, and
    its result is one chunk per counter [0, stride, 2*stride, ...] below
    [n], in order, except the counters whose window trims to the empty
    string.  A chunk at counter [o] has [startIndex = o], [wordCount =
    min(chunkSize, n - o)] and the trimmed join of the words
    [[o, min(o + chunkSize, n))] as its text.  No counter is skipped when
    [chunkSize > 0] and no word is empty.  The number [n] is the length of
    the split: the number of words of the text, and one more for
    whitespace at its start and at its end.  So every text of 560 words
    gives, with the default parameters, two chunks at 0 and 450, and the
    [wordCount] of the second one is 110 when the text neither begins nor
    ends with whitespace, and one more for whitespace at either end. *)
Theorem splitIntoChunks_windows (text : string) (chunkSize overlap : Z) (fuel : nat) :
  let words := JS.split_ws text in
  let n := Z.of_nat (length words) in
  let stride := chunkSize - overlap in
  0 < stride -> (length words <= fuel)%nat ->
  splitIntoChunks fuel text chunkSize overlap =
    Ok (map (window words chunkSize)
          (List.filter (nonblank words chunkSize) (offsets n stride)))
  /\ (forall o, In o (offsets n stride) <->
                exists k : nat, o = Z.of_nat k * stride /\ o < n)
  /\ (forall o, nonblank words chunkSize o =
                negb (forallb is_empty_string (JS.slice words o (o + chunkSize))))
  /\ (forall o, 0 <= o -> 0 <= chunkSize ->
        window words chunkSize o =
          {| chunk_text :=
               JS.trim (JS.join " "
                 (firstn (Z.to_nat (Z.min (o + chunkSize) n - o))
                    (skipn (Z.to_nat o) words)));
             startIndex := o;
             wordCount := Z.min chunkSize (n - o) |})
  /\ (0 < chunkSize -> Forall (fun w => w <> EmptyString) words ->
        List.filter (nonblank words chunkSize) (offsets n stride) = offsets n stride)
  /\ (text <> EmptyString ->
      length words =
        (count_words text + (if starts_space text then 1 else 0)
         + (if ends_space text then 1 else 0))%nat)
  /\ (count_words text = 560%nat -> chunkSize = 500 -> overlap = 50 ->
        exists c1 c2,
          splitIntoChunks fuel text chunkSize overlap = Ok [c1; c2]
          /\ startIndex c1 = 0 /\ startIndex c2 = 450
          /\ wordCount c2 =
               110 + (if starts_space text then 1 else 0)
               + (if ends_space text then 1 else 0)).
Proof.
  intros words n stride Hs Hfuel.
  pose proof (split_ws_no_space text) as Hns. fold words in Hns.
  assert (Hrun : splitIntoChunks fuel text chunkSize overlap =
                 Ok (map (window words chunkSize)
                       (List.filter (nonblank words chunkSize) (offsets n stride))))
    by (apply run_loop_offsets; assumption).
  split; [exact Hrun|].
  split; [intros o; apply offsets_spec; exact Hs|].
  split; [intros o; apply nonblank_spec; exact Hns|].
  split.
  { intros o Ho Hc. unfold window. rewrite slice_sublist by assumption. reflexivity. }
  split.
  { intros Hc Hne. apply windows_all_kept; assumption. }
  split; [intros Hne; apply split_ws_length, Hne|].
  intros Hcw -> ->. rewrite Hrun. subst stride.
  assert (Hne : text <> EmptyString) by (intros ->; discriminate Hcw).
  pose proof (split_ws_length text Hne) as Hlen. rewrite Hcw in Hlen.
  fold words in Hlen.
  assert (Hoff : offsets n (500 - 50) = [0; 450]).
  { unfold n. rewrite Hlen.
    destruct (starts_space text), (ends_space text); reflexivity. }
  rewrite Hoff.
  assert (Hlo : (560 <= length words <= 562)%nat).
  { destruct (starts_space text), (ends_space text); lia. }
  assert (H0 : nonblank words 500 0 = true).
  { destruct (lookup_lt_is_Some_2 words 1) as [w Hw]; [lia|].
    apply (nonblank_lookup words 500 0 1%nat w); try assumption; try lia.
    apply (split_ws_interior text 1 w); [lia| fold words; lia | exact Hw]. }
  assert (H450 : nonblank words 500 450 = true).
  { destruct (lookup_lt_is_Some_2 words 450) as [w Hw]; [lia|].
    apply (nonblank_lookup words 500 450 450%nat w); try assumption; try lia.
    apply (split_ws_interior text 450 w); [lia| fold words; lia | exact Hw]. }
  cbn [List.filter]. rewrite H0, H450. cbn [map].
  eexists _, _. split; [reflexivity|].
  cbn [window startIndex wordCount]. fold n.
  split; [reflexivity|]. split; [reflexivity|].
  unfold n. rewrite Hlen.
  destruct (starts_space text), (ends_space text); reflexivity.
Qed.

Lemma splitIntoChunks_windows_witness :
  splitIntoChunks 3 "a b c" 2 1 =
    Ok [mkChunk "a b" 0 2; mkChunk "b c" 1 2; mkChunk "c" 2 1].
Proof.
  exact (proj1 (splitIntoChunks_windows "a b c" 2 1 3
                  ltac:(reflexivity) ltac:(simpl; lia))).
Defined.

(** C1 as the specification words it, on its own example: every text of
    560 words gives a second chunk of 110 words.  A text of 560 words
    that ends with a line feed splits into 561 pieces, the last one
    empty, and the [wordCount] of its second chunk is 111. *)
Lemma splitIntoChunks_560_words_counterexample :
  ~ (forall (text : string) (fuel : nat),
       count_words text = 560%nat ->
       (length (JS.split_ws text) <= fuel)%nat ->
       exists c1 c2,
         splitIntoChunks fuel text 500 50 = Ok [c1; c2]
         /\ startIndex c1 = 0 /\ startIndex c2 = 450 /\ wordCount c2 = 110).
Proof.
  intros H.
  destruct (H (String.append (words_text 560) (String line_feed EmptyString))
              561%nat) as (c1 & c2 & Hrun & _ & _ & Hw).
  - vm_compute. reflexivity.
  - apply Nat.leb_le. vm_compute. reflexivity.
  - vm_compute in Hrun. inversion Hrun; subst c2. discriminate Hw.
Qed.

(** The loop of [splitIntoChunks] has no [throw]: whatever the bound, a
    run either returns or is still running. *)
Lemma run_loop_never_throws words chunkSize overlap fuel st e :
  run_loop words chunkSize overlap fuel st <> Throw e.
Proof.
  revert st. induction fuel as [|fuel IH]; intros st; simpl;
    destruct (loop_cond words st); try discriminate.
  apply IH.
Qed.

Lemma iterate_counter_nonpos words chunkSize overlap k st :
  chunkSize - overlap <= 0 -> loop_i st <= 0 ->
  loop_i (iterate words chunkSize overlap k st) <= 0.
Proof.
  intros Hs. revert st. induction k as [|k IH]; intros st Hi; simpl; [exact Hi|].
  apply IH. simpl. lia.
Qed.

Lemma run_loop_nonpos_stride words chunkSize overlap fuel st :
  chunkSize - overlap <= 0 -> loop_i st <= 0 -> (0 < length words)%nat ->
  run_loop words chunkSize overlap fuel st = OutOfFuel.
Proof.
  intros Hs Hi Hn. revert st Hi.
  induction fuel as [|fuel IH]; intros st Hi; simpl; unfold loop_cond;
    destruct (Z.ltb_spec (loop_i st) (Z.of_nat (length words))); try lia.
  - reflexivity.
  - apply IH. simpl. lia.
Qed.

(** C2 (as the code has it).  With [overlap >= chunkSize] the function has
    no parameter check and raises nothing: the counter never gets past 0,
    the loop condition [i < words.length] holds at every iteration, and no
    iteration bound lets the call return. *)
Theorem splitIntoChunks_nonpos_stride_never_returns
    (text : string) (chunkSize overlap : Z) :
  chunkSize - overlap <= 0 ->
  (forall k,
     loop_cond (JS.split_ws text)
       (iterate (JS.split_ws text) chunkSize overlap k (mkLoop 0 [])) = true)
  /\ (forall fuel, splitIntoChunks fuel text chunkSize overlap = OutOfFuel).
Proof.
  intros Hs. pose proof (split_ws_length_pos text) as Hn. split.
  - intros k. unfold loop_cond.
    pose proof (iterate_counter_nonpos (JS.split_ws text) chunkSize overlap k
                  (mkLoop 0 []) Hs ltac:(simpl; lia)).
    apply Z.ltb_lt. lia.
  - intros fuel. apply run_loop_nonpos_stride; simpl; lia.
Qed.

Lemma splitIntoChunks_nonpos_stride_never_returns_witness :
  splitIntoChunks 1000 "one two" 50 50 = OutOfFuel.
Proof.
  exact (proj2 (splitIntoChunks_nonpos_stride_never_returns "one two" 50 50
                  ltac:(discriminate)) 1000%nat).
Defined.

(** C2 as the specification words it: a failure with an error value.  No
    run of the function ends in one. *)
Lemma splitIntoChunks_configuration_error_counterexample :
  ~ (forall (text : string) (chunkSize overlap : Z),
       overlap >= chunkSize ->
       exists fuel e, splitIntoChunks fuel text chunkSize overlap = Throw e).
Proof.
  intros H. destruct (H "one two" 50 50 ltac:(lia)) as (fuel & e & Hrun).
  exact (run_loop_never_throws _ _ _ _ _ _ Hrun).
Qed.

Lemma offsets_length n stride : length (offsets n stride) = Z.to_nat (ceil_div n stride).
Proof. unfold offsets. rewrite length_map, length_seq. reflexivity. Qed.

Lemma nonblank_all_empty words chunkSize i :
  Forall (fun w => w = EmptyString) words ->
  nonblank words chunkSize i = false.
Proof.
  intros Hw. rewrite nonblank_spec.
  - assert (Hs : Forall (fun w => w = EmptyString)
                    (JS.slice words i (i + chunkSize)))
      by (unfold JS.slice; apply Forall_take, Forall_drop, Hw).
    apply negb_false_iff, forallb_forall. intros w Hin.
    apply is_empty_string_spec.
    rewrite Forall_forall in Hs. apply Hs, list_elem_of_In, Hin.
  - eapply Forall_impl; [exact Hw|]. intros w ->. reflexivity.
Qed.

Lemma filter_none {A} (f : A -> bool) (l : list A) :
  (forall x, f x = false) -> List.filter f l = [].
Proof.
  intros H. induction l as [|x l IH]; [reflexivity|]. simpl. rewrite H. exact IH.
Qed.

(** C3 (as the code has it).  With a positive stride the loop body runs
    [ceil(n / stride)] times, [n >= 1] being the length of the split (the
    empty text splits into one empty word).  The number of chunks is the
    number of those windows that do not trim to the empty string: at most
    [ceil(n / stride)], exactly that many when [chunkSize > 0] and no word
    is empty, and none when every word is empty. *)
Theorem splitIntoChunks_count (text : string) (chunkSize overlap : Z) (fuel : nat) :
  let words := JS.split_ws text in
  let n := Z.of_nat (length words) in
  let stride := chunkSize - overlap in
  0 < stride -> (length words <= fuel)%nat ->
  exists chunks,
    splitIntoChunks fuel text chunkSize overlap = Ok chunks
    /\ 1 <= n
    /\ length (offsets n stride) = Z.to_nat (ceil_div n stride)
    /\ length chunks =
         length (List.filter (nonblank words chunkSize) (offsets n stride))
    /\ Z.of_nat (length chunks) <= ceil_div n stride
    /\ (0 < chunkSize -> Forall (fun w => w <> EmptyString) words ->
        Z.of_nat (length chunks) = ceil_div n stride)
    /\ (Forall (fun w => w = EmptyString) words -> chunks = []).
Proof.
  intros words n stride Hs Hfuel.
  pose proof (run_loop_offsets words chunkSize overlap fuel Hs Hfuel) as Hrun.
  pose proof (windows_all_kept words chunkSize stride (split_ws_no_space text) Hs)
    as Hkeep.
  fold n in Hrun, Hkeep. fold stride in Hrun.
  assert (Hn1 : 1 <= n) by (pose proof (split_ws_length_pos text); unfold n, words; lia).
  clearbody n stride.
  assert (Hceil : 0 <= ceil_div n stride).
  { unfold ceil_div. apply Z.div_pos; lia. }
  eexists. split; [exact Hrun|].
  split; [exact Hn1|].
  split; [apply offsets_length|].
  split; [apply length_map|].
  split.
  { rewrite length_map.
    pose proof (filter_length_le (nonblank words chunkSize) (offsets n stride)) as Hle.
    rewrite offsets_length in Hle. lia. }
  split.
  { intros Hc Hne. rewrite length_map, Hkeep, offsets_length by assumption. lia. }
  intros Hall. rewrite filter_none; [reflexivity|].
  intros o. apply nonblank_all_empty. exact Hall.
Qed.

Lemma splitIntoChunks_count_witness :
  exists chunks,
    splitIntoChunks 3 "a b c" 2 1 = Ok chunks /\ Z.of_nat (length chunks) = 3.
Proof.
  destruct (splitIntoChunks_count "a b c" 2 1 3 ltac:(reflexivity) ltac:(simpl; lia))
    as (chunks & Hrun & _ & _ & _ & _ & Hall & _).
  exists chunks. split; [exact Hrun|].
  apply Hall; [reflexivity|]. repeat constructor; discriminate.
Defined.

(** C3 as the specification words it.  A text of exactly 500 words gives,
    with the default parameters, two chunks (at 0 and at 450; the second
    one holds the last 50 words again), where the formula
    [ceil((n - overlap) / stride)] gives one. *)
Lemma splitIntoChunks_count_counterexample :
  ~ (forall (text : string) (chunkSize overlap : Z) (fuel : nat) chunks,
       let n := Z.of_nat (length (JS.split_ws text)) in
       let stride := chunkSize - overlap in
       0 < stride ->
       splitIntoChunks fuel text chunkSize overlap = Ok chunks ->
       (n > overlap -> Z.of_nat (length chunks) = ceil_div (n - overlap) stride)
       /\ (0 < n <= overlap -> Z.of_nat (length chunks) = 1)
       /\ (n = 0 -> Z.of_nat (length chunks) = 0)).
Proof.
  intros H.
  assert (E : exists c1 c2,
             splitIntoChunks 2 (words_text 500) default_chunkSize default_overlap
             = Ok [c1; c2]) by (vm_compute; eauto).
  destruct E as (c1 & c2 & E).
  destruct (H (words_text 500) default_chunkSize default_overlap 2%nat [c1; c2]
              ltac:(reflexivity) E) as (H1 & _).
  vm_compute in H1. specialize (H1 eq_refl). discriminate H1.
Qed.

(** ** 4.4 The ranker *)

Lemma compareFn_key a b : Qle_bool (compareFn a b) 0 = true <-> key_ge a b.
Proof.
  rewrite Qle_bool_iff. unfold compareFn, key_ge.
  destruct (hasDirectMatch a), (hasDirectMatch b); simpl.
  - destruct (Qeq_bool (textMatchScore a) (textMatchScore b)) eqn:E; simpl.
    + apply Qeq_bool_iff in E. split.
      * intros H. right. split; [reflexivity|]. right. split; [exact E|lra].
      * intros [[_ H]|[_ [H|[_ H]]]]; [discriminate|lra|lra].
    + apply Qeq_bool_neq in E. split.
      * intros H. right. split; [reflexivity|]. left. lra.
      * intros [[_ H]|[_ [H|[H _]]]]; [discriminate|lra|contradiction].
  - split; [intros _; left; split; reflexivity | intros _; lra].
  - split; [lra | intros [[H _]|[H _]]; discriminate].
  - destruct (Qeq_bool (textMatchScore a) (textMatchScore b)) eqn:E; simpl.
    + apply Qeq_bool_iff in E. split.
      * intros H. right. split; [reflexivity|]. right. split; [exact E|lra].
      * intros [[H _]|[_ [H|[_ H]]]]; [discriminate|lra|lra].
    + apply Qeq_bool_neq in E. split.
      * intros H. right. split; [reflexivity|]. left. lra.
      * intros [[H _]|[_ [H|[H _]]]]; [discriminate|lra|contradiction].
Qed.

Lemma key_ge_total a b : key_ge a b \/ key_ge b a.
Proof.
  unfold key_ge.
  destruct (hasDirectMatch a), (hasDirectMatch b); auto;
    destruct (Q_dec (textMatchScore a) (textMatchScore b)) as [[H|H]|H];
    destruct (Qlt_le_dec (score a) (score b));
    try (left; right; split; [reflexivity|]; (left; lra) || (right; split; [assumption|lra]));
    try (right; right; split; [reflexivity|]; (left; lra) || (right; split; [symmetry; assumption|lra])).
Qed.

Lemma key_ge_trans a b c : key_ge a b -> key_ge b c -> key_ge a c.
Proof.
  unfold key_ge.
  destruct (hasDirectMatch a), (hasDirectMatch b), (hasDirectMatch c);
    intros [[? ?]|[? H1]] [[? ?]|[? H2]]; try discriminate; auto;
    right; (split; [reflexivity|]);
    destruct H1 as [H1|[H1 H1']], H2 as [H2|[H2 H2']];
    first [left; lra | right; split; lra].
Qed.

Lemma hasDirectMatch_key_ge a b :
  key_ge a b -> hasDirectMatch b = true -> hasDirectMatch a = true.
Proof. intros [[H _]|[H _]] Hb; congruence. Qed.

Section Sorting.
Context {A : Type} (cmp : A -> A -> Q).

Let before (a b : A) : Prop := Qle_bool (cmp a b) 0 = true.

Hypothesis before_total : forall a b, before a b \/ before b a.

Lemma sort_insert_perm x l : Permutation (sort_insert cmp x l) (x :: l).
Proof.
  induction l as [|y l IH]; simpl; [reflexivity|].
  destruct (Qle_bool (cmp x y) 0); [reflexivity|].
  rewrite IH. apply perm_swap.
Qed.

Lemma js_sort_perm l : Permutation (js_sort cmp l) l.
Proof.
  induction l as [|x l IH]; simpl; [reflexivity|].
  rewrite sort_insert_perm. constructor. exact IH.
Qed.

Lemma sort_insert_hdrel a x l :
  before a x -> HdRel before a l -> HdRel before a (sort_insert cmp x l).
Proof.
  intros Hax Hal. destruct l as [|y l]; simpl; [constructor; exact Hax|].
  destruct (Qle_bool (cmp x y) 0); constructor; [exact Hax|].
  inversion Hal; assumption.
Qed.

Lemma sort_insert_sorted x l :
  Sorted before l -> Sorted before (sort_insert cmp x l).
Proof.
  induction 1 as [|y l Hl IH Hy]; simpl; [repeat constructor|].
  destruct (Qle_bool (cmp x y) 0) eqn:E.
  - constructor; [constructor; assumption|]. constructor. exact E.
  - constructor; [exact IH|].
    apply sort_insert_hdrel; [|exact Hy].
    destruct (before_total x y) as [H|H]; [|exact H].
    unfold before in H. congruence.
Qed.

Lemma js_sort_sorted l : Sorted before (js_sort cmp l).
Proof.
  induction l as [|x l IH]; simpl; [constructor|].
  apply sort_insert_sorted, IH.
Qed.
End Sorting.

Lemma Sorted_iff {A} (R S : A -> A -> Prop) l :
  (forall a b, R a b <-> S a b) -> Sorted R l -> Sorted S l.
Proof.
  intros HRS. induction 1 as [|x l Hl IH Hx]; constructor; [exact IH|].
  destruct Hx; constructor. apply HRS. assumption.
Qed.

Lemma StronglySorted_firstn {A} (R : A -> A -> Prop) (m : nat) l :
  StronglySorted R l -> StronglySorted R (firstn m l).
Proof.
  intros H. revert m. induction H as [|x l Hl IH Hx]; intros [|m]; simpl;
    try constructor; [apply IH|].
  apply Forall_take. exact Hx.
Qed.

Lemma StronglySorted_lookup {A} (R : A -> A -> Prop) l (i j : nat) a b :
  StronglySorted R l -> (i < j)%nat ->
  l !! i = Some a -> l !! j = Some b -> R a b.
Proof.
  intros H. revert i j. induction H as [|x l Hl IH Hx]; intros i j Hij Hi Hj.
  - discriminate.
  - destruct j as [|j]; [lia|]. destruct i as [|i]; simpl in *.
    + inversion Hi; subst. rewrite Forall_forall in Hx.
      apply Hx, (list_elem_of_lookup_2 _ j), Hj.
    + apply (IH i j); [lia|assumption|assumption].
Qed.

Lemma sublist_List_filter {A} (f : A -> bool) (l : list A) :
  sublist (List.filter f l) l.
Proof.
  induction l as [|x l IH]; simpl; [constructor|].
  destruct (f x); constructor; exact IH.
Qed.

Lemma js_sort_key_sorted l : StronglySorted key_ge (js_sort compareFn l).
Proof.
  apply Sorted_StronglySorted; [exact key_ge_trans|].
  apply (Sorted_iff (fun a b => Qle_bool (compareFn a b) 0 = true)).
  - apply compareFn_key.
  - apply js_sort_sorted. intros a b.
    rewrite !compareFn_key. apply key_ge_total.
Qed.

Lemma rank_sorted query topK opts results :
  includeTextMatches opts = true ->
  StronglySorted key_ge (rank query topK opts results).
Proof.
  intros Hinc. unfold rank. rewrite Hinc.
  destruct (slice_prefix
              (js_sort compareFn
                 (if negb (Qle_bool (minScore opts) 0)
                  then List.filter (fun r => Qle_bool (minScore opts) (score r))
                         (map (processResult query opts) results)
                  else map (processResult query opts) results)) topK) as [m ->].
  apply StronglySorted_firstn, js_sort_key_sorted.
Qed.

Lemma rank_native_order query topK opts results :
  includeTextMatches opts = false ->
  sublist (rank query topK opts results) (map (processResult query opts) results).
Proof.
  intros Hinc. unfold rank. rewrite Hinc.
  match goal with |- sublist (JS.slice ?l 0 topK) _ =>
    destruct (slice_prefix l topK) as [m ->] end.
  etransitivity; [apply sublist_take|].
  destruct (negb (Qle_bool (minScore opts) 0)); [apply sublist_List_filter|reflexivity].
Qed.

Lemma rank_In query topK opts results r :
  In r (rank query topK opts results) ->
  In r (map (processResult query opts) results)
  /\ (negb (Qle_bool (minScore opts) 0) = true ->
      Qle_bool (minScore opts) (score r) = true).
Proof.
  unfold rank.
  match goal with |- In r (JS.slice ?l 0 topK) -> _ =>
    destruct (slice_prefix l topK) as [m ->] end.
  intros Hin. apply list_elem_of_In, elem_of_take in Hin as (i & Hin & _).
  apply list_elem_of_lookup_2, list_elem_of_In in Hin.
  assert (Hin' : In r (if negb (Qle_bool (minScore opts) 0)
                       then List.filter (fun r => Qle_bool (minScore opts) (score r))
                              (map (processResult query opts) results)
                       else map (processResult query opts) results)).
  { destruct (includeTextMatches opts); [|exact Hin].
    eapply Permutation_in; [apply js_sort_perm|exact Hin]. }
  destruct (negb (Qle_bool (minScore opts) 0)).
  - apply filter_In in Hin' as [H1 H2]. auto.
  - split; [exact Hin'|discriminate].
Qed.

Lemma search_inv {W} {C : Collaborators W} query topK opts (st : State W) out st' :
  search query topK opts st = (Ok out, st') ->
  exists queryEmbedding w w' candidates,
    queryItems queryEmbedding (Z.max (topK * 3) 50) w = (Ok candidates, w')
    /\ out = rank query topK opts candidates.
Proof.
  unfold search, bind.
  destruct (initialize st) as [[[]|e|] st1]; try discriminate.
  unfold generateEmbedding, lift_world.
  destruct (embeddings_create _ (world st1)) as [[emb|e|] w1]; try discriminate.
  simpl.
  destruct (queryItems emb (Z.max (topK * 3) 50) w1) as [[cands|e|] w2] eqn:E;
    try discriminate.
  unfold ret. intros H. inversion H; subst. eauto 10.
Qed.

Lemma search_returns {W} {C : Collaborators W}
    query topK opts (st st0 : State W) emb w1 candidates w2 :
  initialize st = (Ok tt, st0) ->
  embeddings_create (collapse_ws (JS.trim query)) (world st0) = (Ok emb, w1) ->
  queryItems emb (Z.max (topK * 3) 50) w1 = (Ok candidates, w2) ->
  search query topK opts st =
    (Ok (rank query topK opts candidates), mkState (engine st0) w2 (trace st0)).
Proof.
  intros H0 H1 H2. unfold search, bind, generateEmbedding, lift_world, ret.
  rewrite H0, H1. simpl. rewrite H2. reflexivity.
Qed.

(** C4 (as the code has it).  When [minScore > 0], the candidates with
    [score < minScore] are dropped before the sort and the truncation, and
    no result that [search] returns has [score < minScore]. *)
Theorem search_minScore_filter {W} {C : Collaborators W}
    query topK opts (st : State W) out st' :
  (0 < minScore opts)%Q ->
  search query topK opts st = (Ok out, st') ->
  (forall r, In r out -> ~ (score r < minScore opts)%Q)
  /\ exists candidates,
       out =
         JS.slice
           ((if includeTextMatches opts then js_sort compareFn else id)
              (List.filter (fun r => Qle_bool (minScore opts) (score r))
                 (map (processResult query opts) candidates)))
           0 topK.
Proof.
  intros Hmin Hrun.
  apply search_inv in Hrun as (emb & w & w' & candidates & _ & ->).
  assert (Hpos : negb (Qle_bool (minScore opts) 0) = true).
  { apply negb_true_iff, not_true_is_false. rewrite Qle_bool_iff. lra. }
  split.
  - intros r Hin. apply rank_In in Hin as [_ Hin].
    specialize (Hin Hpos). apply Qle_bool_iff in Hin. lra.
  - exists candidates. unfold rank. rewrite Hpos.
    destruct (includeTextMatches opts); reflexivity.
Qed.

Lemma search_minScore_filter_witness :
  Forall (fun r => ~ (score r < 1 # 4)%Q)
    (rank "login" 5 (mkOptions false (1 # 4))
       [mk_candidate (1 # 2) "user login"; mk_candidate (1 # 10) "logout"]).
Proof.
  apply Forall_forall. intros r Hr. apply list_elem_of_In in Hr. revert r Hr.
  exact (proj1 (search_minScore_filter (C := demo_collaborators)
                  "login" 5 (mkOptions false (1 # 4))
                  (mkState ready_engine
                     (mkDemo [] [mk_candidate (1 # 2) "user login";
                                 mk_candidate (1 # 10) "logout"]) [])
                  _ _ ltac:(reflexivity) ltac:(reflexivity))).
Defined.

(** C4 as the specification words it, for every option value.  With the
    default [minScore = 0] the filter is not run, and a candidate of
    negative similarity is returned. *)
Lemma search_minScore_counterexample :
  ~ (forall (W : Type) (C : Collaborators W) query topK opts (st : State W) out st',
       search query topK opts st = (Ok out, st') ->
       forall r, In r out -> ~ (score r < minScore opts)%Q).
Proof.
  intros H.
  apply (H demo_world demo_collaborators "login" 5 default_options
           (mkState ready_engine (mkDemo [] [mk_candidate (-1 # 2) "logout"]) [])
           _ _ eq_refl
           (processResult "login" default_options (mk_candidate (-1 # 2) "logout"))).
  - left. reflexivity.
  - reflexivity.
Qed.

Lemma search_inv_calls {W} {C : Collaborators W}
    query topK opts (st : State W) out st' :
  search query topK opts st = (Ok out, st') ->
  exists st0 queryEmbedding w1 candidates w2,
    initialize st = (Ok tt, st0)
    /\ embeddings_create (collapse_ws (JS.trim query)) (world st0)
       = (Ok queryEmbedding, w1)
    /\ queryItems queryEmbedding (Z.max (topK * 3) 50) w1 = (Ok candidates, w2)
    /\ out = rank query topK opts candidates.
Proof.
  unfold search, bind.
  destruct (initialize st) as [[[]|e|] st1]; try discriminate.
  unfold generateEmbedding, lift_world.
  destruct (embeddings_create _ (world st1)) as [[emb|e|] w1] eqn:E1;
    try discriminate.
  simpl.
  destruct (queryItems emb (Z.max (topK * 3) 50) w1) as [[cands|e|] w2] eqn:E2;
    try discriminate.
  unfold ret. intros H. inversion H; subst.
  exists st1, emb, w1, cands, w2. repeat split; assumption.
Qed.

(** C5.  The results of [search] are made of the answer of the store to
    the query, which is fixed by the call: the candidates that pass the
    score filter, each turned into a result.  With [includeTextMatches]
    they are sorted by the composite key (direct match first, then higher
    text-match score, then higher similarity), which is the order the
    comparator decides, and the first [topK] are returned; so no result
    without a direct match stands before one with a direct match.
    Without it, the results are the first [topK] of those candidates in
    the order the store gave them. *)
Theorem search_hybrid_ordering {W} {C : Collaborators W}
    query topK opts (st : State W) out st' :
  search query topK opts st = (Ok out, st') ->
  exists st0 queryEmbedding w1 candidates w2,
    initialize st = (Ok tt, st0)
    /\ embeddings_create (collapse_ws (JS.trim query)) (world st0)
       = (Ok queryEmbedding, w1)
    /\ queryItems queryEmbedding (Z.max (topK * 3) 50) w1 = (Ok candidates, w2)
    /\ (forall a b, Qle_bool (compareFn a b) 0 = true <-> key_ge a b)
    /\ let kept :=
         if negb (Qle_bool (minScore opts) 0)
         then List.filter (fun r => Qle_bool (minScore opts) (score r))
                (map (processResult query opts) candidates)
         else map (processResult query opts) candidates in
       (includeTextMatches opts = true ->
        (exists sorted,
           sorted ≡ₚ kept
           /\ StronglySorted key_ge sorted
           /\ out = JS.slice sorted 0 topK)
        /\ StronglySorted key_ge out
        /\ forall (i j : nat) a b,
             (i < j)%nat -> out !! i = Some a -> out !! j = Some b ->
             hasDirectMatch b = true -> hasDirectMatch a = true)
       /\ (includeTextMatches opts = false -> out = JS.slice kept 0 topK).
Proof.
  intros Hrun.
  apply search_inv_calls in Hrun
    as (st0 & emb & w1 & candidates & w2 & Hinit & Hemb & Hquery & ->).
  exists st0, emb, w1, candidates, w2.
  split; [exact Hinit|]. split; [exact Hemb|]. split; [exact Hquery|].
  split; [exact compareFn_key|]. cbv zeta. split.
  - intros Hinc. pose proof (rank_sorted query topK opts candidates Hinc) as Hs.
    split; [|split; [exact Hs|]].
    + eexists. split; [apply js_sort_perm|].
      split; [apply js_sort_key_sorted|].
      unfold rank. rewrite Hinc. reflexivity.
    + intros i j a b Hij Ha Hb. apply hasDirectMatch_key_ge.
      exact (StronglySorted_lookup _ _ i j a b Hs Hij Ha Hb).
  - intros Hinc. unfold rank. rewrite Hinc. reflexivity.
Qed.

Lemma search_hybrid_ordering_witness :
  exists sorted,
    sorted ≡ₚ map (processResult "login" (mkOptions true 0%Q)) login_candidates
    /\ StronglySorted key_ge sorted
    /\ map score (JS.slice sorted 0 2) = [1 # 2; 1 # 10].
Proof.
  destruct (search_hybrid_ordering (C := demo_collaborators) "login" 2
              (mkOptions true 0%Q)
              (mkState fresh_engine (mkDemo [] login_candidates) [])
              _ _ eq_refl)
    as (st0 & emb & w1 & candidates & w2 & Hinit & Hemb & Hquery & _ & H & _).
  inversion Hinit; subst st0.
  inversion Hemb; subst emb w1. inversion Hquery; subst candidates w2.
  destruct (H eq_refl) as ((sorted & Hperm & Hsorted & Hout) & _).
  exists sorted. split; [exact Hperm|]. split; [exact Hsorted|].
  rewrite <- Hout. reflexivity.
Defined.

(** ** Lexical matching *)

Lemma filter_map_comm {A B} (f : A -> B) (p : B -> bool) (l : list A) :
  List.filter p (map f l) = map f (List.filter (fun x => p (f x)) l).
Proof.
  induction l as [|x l IH]; [reflexivity|].
  simpl. destruct (p (f x)); simpl; rewrite IH; reflexivity.
Qed.

Lemma fold_scan_word text ws acc b :
  fold_left (scan_word text) ws (acc, b) =
    (acc ++ List.filter (token_matches text) ws,
     b || existsb (token_matches text) ws).
Proof.
  revert acc b. induction ws as [|w ws IH]; intros acc b; simpl.
  - rewrite app_nil_r, orb_false_r. reflexivity.
  - unfold scan_word at 2. fold (token_matches text w).
    destruct (token_matches text w); simpl; rewrite IH.
    + rewrite <- app_assoc, orb_true_r. reflexivity.
    + reflexivity.
Qed.

Lemma existsb_filter {A} (p : A -> bool) (l : list A) :
  existsb p l = true <-> List.filter p l <> [].
Proof.
  induction l as [|x l IH]; simpl; [split; [discriminate|congruence]|].
  destruct (p x); simpl; [split; [discriminate|reflexivity]|exact IH].
Qed.

Lemma analyse_matches_spec query chunkText :
  analyse_matches query chunkText =
    let matched :=
      List.filter (token_matches (JS.toLowerCase chunkText))
        (JS.split_ws (JS.toLowerCase query)) in
    {| lx_textMatches := matched;
       lx_hasDirectMatch :=
         existsb (token_matches (JS.toLowerCase chunkText))
           (JS.split_ws (JS.toLowerCase query));
       lx_textMatchScore :=
         (inject_Z (Z.of_nat (length matched))
          / inject_Z (Z.of_nat (length (JS.split_ws query))))%Q |}.
Proof.
  unfold analyse_matches. rewrite fold_scan_word. reflexivity.
Qed.




(** ** 4.3 Batches and the delay schedule *)

Lemma batches_of_nil {A} fuel size : @batches_of A fuel size [] = [].
Proof. destruct fuel; reflexivity. Qed.

Lemma batches_of_concat {A} fuel (size : nat) (l : list A) :
  (0 < size)%nat -> (length l <= fuel)%nat ->
  concat (batches_of fuel size l) = l.
Proof.
  intros Hsize. revert l. induction fuel as [|fuel IH]; intros l Hl.
  - destruct l; [reflexivity|simpl in Hl; lia].
  - destruct l as [|x l]; [reflexivity|].
    cbn [batches_of concat]. rewrite IH.
    + apply firstn_skipn.
    + rewrite length_skipn. simpl in *. lia.
Qed.

Lemma batches_of_length {A} fuel (l : list A) :
  (length l <= fuel)%nat ->
  length (batches_of fuel 5 l) = Z.to_nat (ceil_div (Z.of_nat (length l)) 5).
Proof.
  revert l. induction fuel as [|fuel IH]; intros l Hl.
  - destruct l; [reflexivity|simpl in Hl; lia].
  - destruct l as [|x l]; [reflexivity|].
    cbn [batches_of length]. rewrite IH by (rewrite length_skipn; simpl in *; lia).
    rewrite (ceil_div_step (Z.of_nat (S (length l))) 5) by lia.
    f_equal. rewrite length_skipn.
    destruct (Nat.le_gt_cases 5 (length (x :: l))) as [Hge|Hlt].
    + f_equal. f_equal. simpl in *. lia.
    + rewrite (ceil_div_nonpos (Z.of_nat (S (length l)) - 5)) by (simpl in *; lia).
      replace (length (x :: l) - 5)%nat with 0%nat by lia. reflexivity.
Qed.

Lemma batches_of_cons {A} fuel size (x : A) l :
  batches_of (S fuel) size (x :: l) =
    firstn size (x :: l) :: batches_of fuel size (skipn size (x :: l)).
Proof. reflexivity. Qed.

Lemma batches_of_sizes {A} fuel (l : list A) (k : nat) b :
  (length l <= fuel)%nat ->
  batches_of fuel 5 l !! k = Some b ->
  (1 <= length b <= 5)%nat
  /\ ((S k < length (batches_of fuel 5 l))%nat -> length b = 5%nat).
Proof.
  revert l k. induction fuel as [|fuel IH]; intros l k Hl Hk.
  - destruct l; discriminate.
  - destruct l as [|x l]; [discriminate|].
    rewrite batches_of_cons in *.
    assert (Hpos : (0 < length (x :: l))%nat) by (simpl; lia).
    set (xl := x :: l) in *. clearbody xl.
    pose proof (length_firstn 5 xl) as Hf.
    pose proof (length_skipn 5 xl) as Hs.
    destruct k as [|k].
    + injection Hk as <-. split; [lia|].
      cbn [length]. intros Hmore.
      destruct (skipn 5 xl) as [|y r] eqn:E;
        [rewrite batches_of_nil in Hmore; simpl in Hmore; lia|].
      simpl in Hs. lia.
    + destruct (IH (skipn 5 xl) k) as [H1 H2]; [lia | exact Hk |].
      split; [exact H1|]. cbn [length]. intros Hmore. apply H2. lia.
Qed.

Section ScheduleFacts.
Variables (filePath : string) (data : ExtractedUnit).

Lemma batch_events_no_delay idx b :
  List.filter is_delay (batch_events filePath data idx b) = [].
Proof. revert idx. induction b as [|c b IH]; intros idx; simpl; auto. Qed.


Lemma schedule_delays idx batches :
  length (List.filter is_delay (schedule filePath data idx batches)) =
    (length batches - 1)%nat.
Proof.
  revert idx. induction batches as [|b rest IH]; intros idx; [reflexivity|].
  cbn [schedule]. rewrite !List.filter_app, batch_events_no_delay.
  rewrite !length_app, IH.
  destruct rest; simpl; lia.
Qed.

Lemma schedule_delay_value idx batches :
  Forall (fun e => is_delay e = true -> e = Delay 100)
    (schedule filePath data idx batches).
Proof.
  revert idx. induction batches as [|b rest IH]; intros idx; [constructor|].
  cbn [schedule]. rewrite !Forall_app. split; [|split].
  - apply Forall_forall. intros e He Hd. exfalso.
    assert (Hin : In e (List.filter is_delay (batch_events filePath data idx b)))
      by (apply filter_In; split; [apply list_elem_of_In, He|exact Hd]).
    rewrite batch_events_no_delay in Hin. exact Hin.
  - destruct rest; repeat constructor.
  - apply IH.
Qed.

End ScheduleFacts.

(** ** The trace of a run *)

Section TraceLogic.
Context {W : Type}.



Lemma silent_lift_world {A} (f : W -> result A * W) : silent (lift_world f).
Proof. intros st. unfold lift_world. destruct (f (world st)). reflexivity. Qed.







Lemma emits_emit e (st : State W) : emits (emit e) st [e].
Proof. exists [e]. split; [reflexivity|simpl; reflexivity]. Qed.



Lemma emits_submseteq {A} (m : M W A) st X :
  emits m st X ->
  exists new, trace (snd (m st)) = trace st ++ new /\ new ⊆+ X.
Proof.
  intros (new & Htr & Hm). exists new. split; [exact Htr|].
  destruct (fst (m st)); [apply Permutation_submseteq|..]; exact Hm.
Qed.

Lemma succeeds_bind {A B} (m : M W A) (k : A -> M W B) st :
  succeeds m st ->
  (forall a st', m st = (Ok a, st') -> succeeds (k a) st') ->
  succeeds (bind m k) st.
Proof.
  intros (a & st1 & E) Hk. unfold succeeds, bind. rewrite E.
  exact (Hk a st1 E).
Qed.

(** ** Permutations and sub-multisets *)

Lemma insert_delete_Permutation {A} (l : list A) (k : nat) (x y : A) :
  l !! k = Some x -> <[k := y]> l ≡ₚ y :: delete k l.
Proof.
  revert k. induction l as [|z l IH]; intros [|k] H; try discriminate.
  - reflexivity.
  - simpl in H. cbn. rewrite (IH k H). apply perm_swap.
Qed.


Lemma filter_Permutation_length {A} (f : A -> bool) (l1 l2 : list A) :
  l1 ≡ₚ l2 -> length (List.filter f l1) = length (List.filter f l2).
Proof.
  induction 1 as [|x l1 l2 _ IH|x y l|l1 l2 l3 _ IH1 _ IH2]; simpl.
  - reflexivity.
  - destruct (f x); simpl; congruence.
  - destruct (f x), (f y); reflexivity.
  - congruence.
Qed.

Lemma filter_submseteq_length {A} (f : A -> bool) (l1 l2 : list A) :
  l1 ⊆+ l2 -> (length (List.filter f l1) <= length (List.filter f l2))%nat.
Proof.
  intros H. apply submseteq_Permutation in H as [k Hk].
  rewrite (filter_Permutation_length f _ _ Hk), List.filter_app, length_app. lia.
Qed.
End TraceLogic.

Section Pipeline.
Context {W : Type} {C : Collaborators W}.
Variables (filePath : string) (data : ExtractedUnit).

Lemma silent_generateEmbedding t : silent (generateEmbedding t).
Proof. apply silent_lift_world. Qed.

(** *** The callbacks of a batch *)

Lemma pending_callbacks i batch :
  forall batchIndex,
    pending_events filePath data i (callbacks batch batchIndex) =
      batch_events filePath data (i + batchIndex) batch.
Proof.
  induction batch as [|chunk batch IH]; intros batchIndex; [reflexivity|].
  cbn [callbacks batch_events]. unfold pending_events. cbn [omap list_omap].
  f_equal. fold (pending_events filePath data i (callbacks batch (batchIndex + 1))).
  rewrite IH. f_equal. lia.
Qed.

Lemma steps_left_callbacks batch :
  forall batchIndex, steps_left (callbacks batch batchIndex) = (2 * length batch)%nat.
Proof.
  induction batch as [|chunk batch IH]; intros batchIndex; [reflexivity|].
  cbn [callbacks steps_left length]. rewrite IH. lia.
Qed.

Lemma steps_left_Permutation l1 l2 : l1 ≡ₚ l2 -> steps_left l1 = steps_left l2.
Proof.
  induction 1 as [|x l1 l2 _ IH|x y l|l1 l2 l3 _ IH1 _ IH2]; simpl.
  - reflexivity.
  - destruct x; rewrite IH; reflexivity.
  - destruct x, y; reflexivity.
  - congruence.
Qed.

Lemma steps_left_pos first rest : (0 < steps_left (first :: rest))%nat.
Proof. destruct first; simpl; lia. Qed.

(** The callback that is answered next is one of the pending ones. *)
Lemma pick_lookup (pending : list Callback) first (n : nat) :
  pending <> [] ->
  pending !! (n mod length pending)%nat =
    Some (nth (n mod length pending) pending first).
Proof.
  intros Hne.
  destruct (nth_lookup_or_length pending (n mod length pending) first) as [H|H];
    [exact H|].
  exfalso.
  assert (Hlen : length pending <> 0%nat) by (destruct pending; simpl; congruence).
  pose proof (Nat.mod_upper_bound n (length pending) Hlen). lia.
Qed.

Lemma pending_events_delete i pending k callback :
  pending !! k = Some callback ->
  pending_events filePath data i pending ≡ₚ
    pending_events filePath data i [callback]
    ++ pending_events filePath data i (delete k pending).
Proof.
  intros H. unfold pending_events. rewrite <- omap_app.
  apply omap_Permutation. simpl. apply delete_Permutation, H.
Qed.

Lemma pending_events_insert i pending k callback callback' :
  pending !! k = Some callback ->
  pending_events filePath data i (<[k := callback']> pending) ≡ₚ
    pending_events filePath data i [callback']
    ++ pending_events filePath data i (delete k pending).
Proof.
  intros H. unfold pending_events. rewrite <- omap_app.
  apply omap_Permutation. simpl. apply (insert_delete_Permutation _ _ _ _ H).
Qed.

Lemma steps_left_delete pending k callback :
  pending !! k = Some callback ->
  steps_left pending = (steps_left [callback] + steps_left (delete k pending))%nat.
Proof.
  intros H. rewrite (steps_left_Permutation _ _ (delete_Permutation _ _ _ H)).
  destruct callback; simpl; lia.
Qed.

Lemma steps_left_insert pending k callback callback' :
  pending !! k = Some callback ->
  steps_left (<[k := callback']> pending) =
    (steps_left [callback'] + steps_left (delete k pending))%nat.
Proof.
  intros H.
  rewrite (steps_left_Permutation _ _ (insert_delete_Permutation _ _ _ callback' H)).
  destruct callback'; simpl; lia.
Qed.

(** What one answer does to the trace and to the callback it resumes. *)
Lemma indexChunk_step i callback (st : State W) :
  match indexChunk filePath data i callback st with
  | (Ok (Some callback'), st') =>
      steps_left [callback] = 2%nat /\ steps_left [callback'] = 1%nat
      /\ pending_events filePath data i [callback'] = []
      /\ trace st' = trace st ++ pending_events filePath data i [callback]
  | (Ok None, st') =>
      steps_left [callback] = 1%nat
      /\ pending_events filePath data i [callback] = []
      /\ trace st' = trace st
  | (_, st') => trace st' = trace st
  end.
Proof.
  destruct callback as [chunk batchIndex|item];
    unfold indexChunk, bind, generateEmbedding, lift_world, emit, ret.
  - destruct (embeddings_create _ (world st)) as [[v|e|] w1]; simpl; auto.
  - destruct (insertItem item (world st)) as [[[]|e|] w1]; simpl; auto.
Qed.

Lemma promise_all_unfold steps i first rest rejected (st : State W) :
  promise_all (S steps) filePath data i (first :: rest) rejected st =
    match indexChunk filePath data i
            (nth (next_answer (length (first :: rest)) (world st)
                  mod length (first :: rest)) (first :: rest) first) st with
    | (Ok (Some callback), st') =>
        promise_all steps filePath data i
          (<[(next_answer (length (first :: rest)) (world st)
              mod length (first :: rest))%nat := callback]> (first :: rest))
          rejected st'
    | (Ok None, st') =>
        promise_all steps filePath data i
          (delete (next_answer (length (first :: rest)) (world st)
                   mod length (first :: rest))%nat (first :: rest))
          rejected st'
    | (Throw error, st') =>
        promise_all steps filePath data i
          (delete (next_answer (length (first :: rest)) (world st)
                   mod length (first :: rest))%nat (first :: rest))
          (Some (match rejected with
                 | Some earlier => earlier
                 | None => error
                 end)) st'
    | (OutOfFuel, st') => (OutOfFuel, st')
    end.
Proof. reflexivity. Qed.

(** The inserts of a batch are made in the order the answers come in:
    some of the batch's inserts in any case, and all of them when the
    promise is fulfilled, which it is only if no callback has thrown. *)
Lemma promise_all_trace i steps :
  forall pending rejected (st : State W),
  exists new,
    trace (snd (promise_all steps filePath data i pending rejected st))
      = trace st ++ new
    /\ new ⊆+ pending_events filePath data i pending
    /\ (forall u,
          fst (promise_all steps filePath data i pending rejected st) = Ok u ->
          new ≡ₚ pending_events filePath data i pending /\ rejected = None).
Proof.
  induction steps as [|steps IH]; intros pending rejected st;
    destruct pending as [|first rest].
  1,3: exists []; rewrite app_nil_r; destruct rejected; simpl;
       (split; [reflexivity|split; [reflexivity|]]); intros u H;
       first [discriminate | split; reflexivity].
  - exists []. rewrite app_nil_r. simpl.
    split; [reflexivity|]. split; [apply submseteq_nil_l|discriminate].
  - rewrite promise_all_unfold.
    set (pending := first :: rest) in *.
    set (k := (next_answer (length pending) (world st) mod length pending)%nat).
    assert (Hk : pending !! k = Some (nth k pending first))
      by (apply pick_lookup; discriminate).
    clearbody k pending.
    pose proof (indexChunk_step i (nth k pending first) st) as Hstep.
    pose proof (pending_events_delete i pending k _ Hk) as Hdel.
    destruct (indexChunk filePath data i (nth k pending first) st)
      as [[[callback'|]|e|] st'] eqn:E.
    + destruct Hstep as (_ & _ & Hnil & Htr).
      destruct (IH (<[k := callback']> pending) rejected st')
        as (new & Htr' & Hsub & Hok).
      pose proof (pending_events_insert i pending k _ callback' Hk) as Hins.
      rewrite Hnil in Hins. simpl in Hins.
      exists (pending_events filePath data i [nth k pending first] ++ new).
      split; [rewrite Htr', Htr, app_assoc; reflexivity|]. split.
      * rewrite Hdel. apply submseteq_skips_l. rewrite <- Hins. exact Hsub.
      * intros u Hu. destruct (Hok u Hu) as [Hp Hr]. split; [|exact Hr].
        rewrite Hdel, Hp, Hins. reflexivity.
    + destruct Hstep as (_ & Hnil & Htr).
      destruct (IH (delete k pending) rejected st') as (new & Htr' & Hsub & Hok).
      rewrite Hnil in Hdel. simpl in Hdel.
      exists new. split; [rewrite Htr', Htr; reflexivity|]. split.
      * rewrite Hdel. exact Hsub.
      * intros u Hu. destruct (Hok u Hu) as [Hp Hr]. split; [|exact Hr].
        rewrite Hdel. exact Hp.
    + destruct (IH (delete k pending)
                  (Some (match rejected with Some earlier => earlier | None => e end))
                  st') as (new & Htr' & Hsub & Hok).
      exists new. split; [rewrite Htr', Hstep; reflexivity|]. split.
      * rewrite Hdel. apply submseteq_inserts_l, Hsub.
      * intros u Hu. destruct (Hok u Hu) as [_ Hr]. discriminate Hr.
    + exists []. rewrite app_nil_r. simpl.
      split; [exact Hstep|]. split; [apply submseteq_nil_l|discriminate].
Qed.

Lemma promise_all_emits i batch steps st :
  emits (promise_all steps filePath data i (callbacks batch 0) None) st
    (batch_events filePath data i batch).
Proof.
  destruct (promise_all_trace i steps (callbacks batch 0) None st)
    as (new & Htr & Hsub & Hok).
  rewrite pending_callbacks, Z.add_0_r in Hsub, Hok.
  exists new. split; [exact Htr|].
  destruct (fst (promise_all steps filePath data i (callbacks batch 0) None st))
    eqn:E; [apply (Hok _ eq_refl)|exact Hsub..].
Qed.

Lemma slice_batch (chunks : list Chunk) (i : Z) :
  0 <= i ->
  JS.slice chunks i (i + batchSize) = firstn 5 (skipn (Z.to_nat i) chunks).
Proof.
  intros Hi. rewrite slice_sublist by (unfold batchSize; lia).
  unfold batchSize.
  destruct (Z.le_gt_cases (i + 5) (Z.of_nat (length chunks))) as [Hle|Hgt].
  - f_equal. lia.
  - rewrite !firstn_all2; [reflexivity| |]; rewrite length_skipn; lia.
Qed.

(** *** The loop over the batches *)

Lemma batch_loop_trace (chunks : list Chunk) fuel :
  forall i (st : State W),
    0 <= i -> (length (skipn (Z.to_nat i) chunks) <= fuel)%nat ->
    exists new,
      trace (snd (batch_loop fuel filePath data chunks i st)) = trace st ++ new
      /\ match fst (batch_loop fuel filePath data chunks i st) with
         | Ok _ =>
             performs filePath data i
               (batches_of fuel 5 (skipn (Z.to_nat i) chunks)) new
         | _ =>
             breaks_off filePath data i
               (batches_of fuel 5 (skipn (Z.to_nat i) chunks)) new
         end.
Proof.
  induction fuel as [|fuel IH]; intros i st Hi Hfuel.
  - rewrite length_skipn in Hfuel. cbn [batch_loop].
    destruct (Z.ltb_spec i (Z.of_nat (length chunks))); [lia|].
    exists []. rewrite app_nil_r. split; reflexivity.
  - cbn [batch_loop].
    destruct (Z.ltb_spec i (Z.of_nat (length chunks))) as [Hlt|Hge].
    + destruct (skipn (Z.to_nat i) chunks) as [|c rest] eqn:E.
      { apply (f_equal (@length _)) in E. rewrite length_skipn in E.
        simpl in E. lia. }
      rewrite batches_of_cons, <- E. cbn [performs breaks_off].
      rewrite slice_batch by exact Hi.
      set (batch := firstn 5 (skipn (Z.to_nat i) chunks)).
      assert (Hskip : skipn 5 (skipn (Z.to_nat i) chunks) =
                      skipn (Z.to_nat (i + batchSize)) chunks).
      { rewrite skipn_skipn. f_equal. unfold batchSize. lia. }
      rewrite Hskip.
      assert (Hlen : (length (skipn (Z.to_nat (i + batchSize)) chunks) <= fuel)%nat).
      { rewrite <- Hskip, length_skipn. rewrite E in *. simpl in *. lia. }
      pose proof (fun st' => IH (i + batchSize) st' ltac:(unfold batchSize; lia) Hlen)
        as IH'.
      destruct (promise_all_trace i (2 * length batch) (callbacks batch 0) None st)
        as (new1 & Htr1 & Hsub1 & Hok1).
      rewrite pending_callbacks, Z.add_0_r in Hsub1, Hok1.
      unfold bind.
      destruct (promise_all (2 * length batch) filePath data i (callbacks batch 0)
                  None st) as [[[]|e|] st1] eqn:EP; simpl in Htr1, Hok1.
      * destruct (Hok1 tt eq_refl) as [Hperm _].
        destruct (Z.ltb_spec (i + batchSize) (Z.of_nat (length chunks)))
          as [Hmore|Hlast].
        -- assert (Hb : Z.of_nat (length batch) = batchSize).
           { unfold batch. rewrite length_firstn, length_skipn.
             unfold batchSize in *. lia. }
           rewrite Hb.
           destruct (batches_of fuel 5 (skipn (Z.to_nat (i + batchSize)) chunks))
             as [|b bs] eqn:EB.
           { apply (f_equal (@length _)) in EB.
             rewrite batches_of_length in EB by exact Hlen.
             rewrite length_skipn in EB.
             rewrite (ceil_div_step _ 5) in EB by (unfold batchSize in *; lia).
             discriminate EB. }
           unfold emit. cbv beta iota.
           destruct (IH' (mkState (engine st1) (world st1)
                            (trace st1 ++ [Delay 100]))) as (new2 & Htr2 & Hres2).
           try rewrite EB in Hres2. cbn [trace] in Htr2.
           exists (new1 ++ [Delay 100] ++ new2).
           split; [rewrite Htr2, Htr1, <- !app_assoc; reflexivity|].
           destruct (fst (batch_loop fuel filePath data chunks (i + batchSize) _)).
           ++ exists new1, new2. split; [reflexivity|]. split; assumption.
           ++ right. exists new1, new2.
              split; [discriminate|]. split; [reflexivity|]. split; assumption.
           ++ right. exists new1, new2.
              split; [discriminate|]. split; [reflexivity|]. split; assumption.
        -- unfold ret at 1 2. cbv beta iota.
           destruct (IH' st1) as (new2 & Htr2 & Hres2).
           rewrite skipn_all2, batches_of_nil in * by (unfold batchSize in *; lia).
           exists (new1 ++ new2).
           split; [rewrite Htr2, Htr1, app_assoc; reflexivity|].
           destruct (fst (batch_loop fuel filePath data chunks (i + batchSize) st1));
             simpl in Hres2; [|contradiction..].
           subst new2. exists new1, []. split; [reflexivity|].
           split; [exact Hperm|reflexivity].
      * exists new1. split; [exact Htr1|]. left. exact Hsub1.
      * exists new1. split; [exact Htr1|]. left. exact Hsub1.
    + rewrite skipn_all2, batches_of_nil by lia.
      exists []. rewrite app_nil_r. split; reflexivity.
Qed.

Lemma performs_schedule idx batches events :
  performs filePath data idx batches events ->
  events ≡ₚ schedule filePath data idx batches.
Proof.
  revert idx events. induction batches as [|b rest IH]; intros idx events H.
  - simpl in H. subst. reflexivity.
  - destruct H as (inserts & events' & -> & Hperm & Hrest).
    cbn [schedule]. rewrite Hperm, (IH _ _ Hrest). reflexivity.
Qed.

Lemma breaks_off_schedule idx batches events :
  breaks_off filePath data idx batches events ->
  events ⊆+ schedule filePath data idx batches.
Proof.
  revert idx events. induction batches as [|b rest IH]; intros idx events H.
  - destruct H.
  - cbn [schedule].
    destruct H as [Hsub|(inserts & events' & Hne & -> & Hperm & Hrest)].
    + apply submseteq_inserts_r, Hsub.
    + destruct rest as [|b' rest']; [congruence|].
      apply submseteq_app; [apply Permutation_submseteq, Hperm|].
      apply (submseteq_skip (Delay 100)), IH, Hrest.
Qed.



Lemma splitIntoChunks_default_returns :
  splitIntoChunks (length (JS.split_ws (u_text data))) (u_text data)
    default_chunkSize default_overlap = Ok (unit_chunks data).
Proof.
  unfold unit_chunks, splitIntoChunks.
  rewrite run_loop_offsets; [reflexivity|reflexivity|lia].
Qed.

(** The shape of the trace of one unit. *)
Lemma indexUnit_trace (st : State W) :
  exists new,
    trace (snd (indexUnit filePath data st)) = trace st ++ new
    /\ match fst (indexUnit filePath data st) with
       | Ok n =>
           n = Z.of_nat (length (unit_chunks data))
           /\ performs filePath data 0
                (batches_of (length (unit_chunks data)) 5 (unit_chunks data)) new
       | _ =>
           breaks_off filePath data 0
             (batches_of (length (unit_chunks data)) 5 (unit_chunks data)) new
       end.
Proof.
  unfold indexUnit. rewrite splitIntoChunks_default_returns.
  destruct (batch_loop_trace (unit_chunks data) (length (unit_chunks data)) 0 st
              ltac:(lia) ltac:(rewrite length_skipn; lia)) as (new & Htr & Hres).
  change (skipn (Z.to_nat 0) (unit_chunks data)) with (unit_chunks data) in Hres.
  unfold bind, lift_result, ret.
  destruct (batch_loop (length (unit_chunks data)) filePath data (unit_chunks data) 0 st)
    as [[[]|e|] st1]; cbn [fst snd] in *; exists new; (split; [exact Htr|]);
    [split; [reflexivity|exact Hres]|exact Hres..].
Qed.

(** The provider and the store answer every call. *)
Hypothesis provider_answers :
  forall t w, exists v w', embeddings_create t w = (Ok v, w').
Hypothesis store_accepts :
  forall it w, exists w', insertItem it w = (Ok tt, w').

Lemma promise_all_succeeds i steps :
  forall pending (st : State W),
    (steps_left pending <= steps)%nat ->
    succeeds (promise_all steps filePath data i pending None) st.
Proof.
  induction steps as [|steps IH]; intros pending st Hsteps;
    destruct pending as [|first rest];
    try (unfold succeeds; simpl; unfold ret; eauto; fail).
  - pose proof (steps_left_pos first rest). lia.
  - unfold succeeds. rewrite promise_all_unfold.
    set (pending := first :: rest) in *.
    set (k := (next_answer (length pending) (world st) mod length pending)%nat).
    assert (Hk : pending !! k = Some (nth k pending first))
      by (apply pick_lookup; discriminate).
    clearbody k pending.
    pose proof (steps_left_delete pending k _ Hk) as Hdel.
    destruct (nth k pending first) as [chunk batchIndex|item] eqn:Ecb.
    + unfold indexChunk, bind, generateEmbedding, lift_world, emit, ret.
      destruct (provider_answers (collapse_ws (JS.trim (chunk_text chunk))) (world st))
        as (v & w1 & ->).
      apply IH. rewrite (steps_left_insert pending k _ _ Hk).
      simpl in *. lia.
    + unfold indexChunk, bind, lift_world, ret.
      destruct (store_accepts item (world st)) as (w1 & ->).
      apply IH. simpl in *. lia.
Qed.

Lemma batch_loop_succeeds (chunks : list Chunk) fuel i st :
  0 <= i -> (length (skipn (Z.to_nat i) chunks) <= fuel)%nat ->
  succeeds (batch_loop fuel filePath data chunks i) st.
Proof.
  revert i st. induction fuel as [|fuel IH]; intros i st Hi Hfuel;
    rewrite length_skipn in Hfuel; cbn [batch_loop];
    destruct (Z.ltb_spec i (Z.of_nat (length chunks))) as [Hlt|Hge];
    try lia; try (unfold succeeds, ret; eauto; fail).
  apply succeeds_bind;
    [apply promise_all_succeeds; rewrite steps_left_callbacks; lia|].
  intros _ st1 _. apply succeeds_bind.
  - destruct (i + batchSize <? Z.of_nat (length chunks));
      unfold succeeds, emit, ret; eauto.
  - intros _ st2 _. apply IH; [unfold batchSize; lia|].
    rewrite length_skipn. unfold batchSize. lia.
Qed.

Lemma indexUnit_succeeds st : succeeds (indexUnit filePath data) st.
Proof.
  unfold indexUnit. apply succeeds_bind.
  - unfold succeeds, lift_result.
    rewrite splitIntoChunks_default_returns. eauto.
  - intros chunks st1 _. apply succeeds_bind.
    + apply batch_loop_succeeds; [lia|]. rewrite length_skipn. lia.
    + intros _ st2 _. unfold succeeds, ret. eauto.
Qed.
End Pipeline.

Lemma batches_of_nonempty {A} fuel (l : list A) :
  (length l <= fuel)%nat -> Forall (fun b => b <> []) (batches_of fuel 5 l).
Proof.
  intros Hl. apply Forall_lookup. intros k b Hk.
  destruct (batches_of_sizes fuel l k b Hl Hk) as [[H _] _].
  destruct b; [simpl in H; lia|discriminate].
Qed.

Lemma batch_events_inserts filePath data idx b e :
  In e (batch_events filePath data idx b) -> is_delay e = false.
Proof.
  revert idx. induction b as [|c b IH]; intros idx; [intros []|].
  intros [<-|H]; [reflexivity|exact (IH _ H)].
Qed.

Lemma performs_last filePath data idx batches events e :
  Forall (fun b => b <> []) batches ->
  performs filePath data idx batches events ->
  last events = Some e -> is_delay e = false.
Proof.
  intros Hne. revert idx events.
  induction Hne as [|b rest Hb Hrest IH]; intros idx events H Hlast.
  - simpl in H. subst. discriminate.
  - destruct H as (inserts & events' & -> & Hperm & Hperf).
    destruct rest as [|b' rest'].
    + simpl in Hperf. subst events'. rewrite !app_nil_r in Hlast.
      apply last_Some_elem_of in Hlast. rewrite Hperm in Hlast.
      apply (batch_events_inserts filePath data idx b), list_elem_of_In, Hlast.
    + rewrite app_assoc, last_app in Hlast.
      destruct (last events') as [e'|] eqn:El.
      * inversion Hlast; subst. exact (IH _ _ Hperf El).
      * exfalso. apply last_None in El. subst events'.
        destruct Hperf as (inserts' & events'' & E & Hperm' & _).
        symmetry in E. apply app_eq_nil in E as [-> _].
        apply Permutation_nil in Hperm'.
        inversion Hrest as [|? ? Hb' _]; subst.
        destruct b'; [congruence|discriminate].
Qed.

(** C7.  The chunks of a unit are taken in batches of five, in order:
    [ceil(N / 5)] batches, each of five chunks except possibly the last.
    A run of the unit's indexing that returns has gone through the
    batches in order: the inserts of a batch, in the order the answers
    came in, then a delay of 100 ms if another batch follows.  So for
    [N > 0] chunks it has made [ceil(N / 5) - 1] delays and has not ended
    with one.  A run that fails has gone through the batches before the
    failing one in the same way and has made some of the inserts of the
    failing batch.  The run returns when the embedding provider and the
    store answer every call. *)
Theorem indexUnit_rate_limiting {W} {C : Collaborators W}
    (filePath : string) (data : ExtractedUnit) (st : State W) :
  let chunks := unit_chunks data in
  let N := Z.of_nat (length chunks) in
  let batches := batches_of (length chunks) 5 chunks in
  splitIntoChunks (length (JS.split_ws (u_text data))) (u_text data)
    default_chunkSize default_overlap = Ok chunks
  /\ concat batches = chunks
  /\ Z.of_nat (length batches) = ceil_div N 5
  /\ (forall (k : nat) b,
        batches !! k = Some b ->
        (1 <= length b <= 5)%nat
        /\ ((S k < length batches)%nat -> length b = 5%nat))
  /\ (exists new,
        trace (snd (indexUnit filePath data st)) = trace st ++ new
        /\ Forall (fun e => is_delay e = true -> e = Delay 100) new
        /\ (forall n,
              fst (indexUnit filePath data st) = Ok n ->
              n = N
              /\ performs filePath data 0 batches new
              /\ (0 < N ->
                  Z.of_nat (length (List.filter is_delay new)) = ceil_div N 5 - 1)
              /\ (forall e, last new = Some e -> is_delay e = false))
        /\ (forall error,
              fst (indexUnit filePath data st) = Throw error ->
              breaks_off filePath data 0 batches new
              /\ Z.of_nat (length (List.filter is_delay new)) <= ceil_div N 5 - 1))
  /\ ((forall t w, exists v w', embeddings_create t w = (Ok v, w')) ->
      (forall it w, exists w', insertItem it w = (Ok tt, w')) ->
      exists n st', indexUnit filePath data st = (Ok n, st')).
Proof.
  intros chunks N batches.
  assert (Hlen : Z.of_nat (length batches) = ceil_div N 5).
  { unfold batches. rewrite batches_of_length by lia.
    apply Z2Nat.id. unfold ceil_div. apply Z.div_pos; lia. }
  assert (Hdelays : forall idx,
             length (List.filter is_delay (schedule filePath data idx batches))
             = (length batches - 1)%nat) by (intros idx; apply schedule_delays).
  split; [apply splitIntoChunks_default_returns|].
  split; [apply batches_of_concat; lia|].
  split; [exact Hlen|].
  split; [intros k b; apply batches_of_sizes; lia|].
  split; [|intros Hprov Hstore; exact (indexUnit_succeeds filePath data Hprov Hstore st)].
  destruct (indexUnit_trace filePath data st) as (new & Htr & Hres).
  fold chunks in Hres. fold batches in Hres.
  exists new. split; [exact Htr|].
  assert (Hsub : new ⊆+ schedule filePath data 0 batches).
  { destruct (fst (indexUnit filePath data st)).
    - apply Permutation_submseteq, performs_schedule, Hres.
    - apply breaks_off_schedule, Hres.
    - apply breaks_off_schedule, Hres. }
  split.
  { apply Forall_forall. intros e He.
    pose proof (schedule_delay_value filePath data 0 batches) as Hall.
    rewrite Forall_forall in Hall. apply Hall.
    exact (elem_of_submseteq _ _ _ He Hsub). }
  split.
  - intros n E. rewrite E in Hres. destruct Hres as [-> Hperf].
    split; [reflexivity|]. split; [exact Hperf|]. split.
    + intros HN.
      rewrite (filter_Permutation_length _ _ _ (performs_schedule _ _ _ _ _ Hperf)).
      rewrite Hdelays.
      assert (Hpos : (1 <= length batches)%nat).
      { unfold batches. rewrite batches_of_length by lia.
        fold chunks. fold N. rewrite (ceil_div_step N 5) by lia. lia. }
      rewrite <- Hlen. clearbody batches. lia.
    + intros e. apply (performs_last filePath data 0 batches); [|exact Hperf].
      apply batches_of_nonempty. lia.
  - intros error E. rewrite E in Hres. split; [exact Hres|].
    pose proof (filter_submseteq_length is_delay _ _ Hsub) as Hle.
    rewrite Hdelays in Hle. rewrite <- Hlen.
    destruct batches as [|b bs]; [destruct Hres|].
    clearbody chunks. simpl length in *. lia.
Qed.

(** ** 4.2 Identifiers *)














(** ** Spreadsheet rows *)






(** ** The run of [indexDocument] *)

Section Document.
Context {W : Type} {C : Collaborators W}.





(** Every workbook the reader returns has distinct, non-empty sheet
    names, as the spreadsheet formats require. *)
Hypothesis workbooks_well_formed :
  forall p w wb w',
    XLSX_readFile p w = (Ok wb, w') ->
    NoDup (SheetNames wb)
    /\ Forall (fun s => s <> EmptyString) (SheetNames wb).


End Document.






Lemma indexUnit_rate_limiting_witness :
  exists new,
    trace (snd (indexUnit (C := unordered_collaborators) "long.txt" long_unit
                  (mkState ready_engine tt []))) = [] ++ new
    /\ Z.of_nat (length (unit_chunks long_unit)) = 6
    /\ map is_delay new = [false; false; false; false; false; true; false]
    /\ inserted_ids new =
         ["long.txt_chunk_4"; "long.txt_chunk_3"; "long.txt_chunk_2";
          "long.txt_chunk_1"; "long.txt_chunk_0"; "long.txt_chunk_5"]
    /\ Z.of_nat (length (List.filter is_delay new))
       = ceil_div (Z.of_nat (length (unit_chunks long_unit))) 5 - 1.
Proof.
  destruct (indexUnit_rate_limiting (C := unordered_collaborators) "long.txt"
              long_unit (mkState ready_engine tt []))
    as (_ & _ & _ & _ & (new & Htr & _ & Hok & _) & _).
  exists new. split; [exact Htr|].
  destruct (Hok 6 ltac:(vm_compute; reflexivity)) as (_ & _ & Hd & _).
  split; [vm_compute; reflexivity|].
  simpl app in Htr.
  split; [rewrite <- Htr; vm_compute; reflexivity|].
  split; [rewrite <- Htr; vm_compute; reflexivity|].
  apply Hd. vm_compute. reflexivity.
Defined.



(** Distinct sheet names are not enough: the rows of a sheet with the
    empty name are units without a sheet, and their chunks all get
    "<fileName>_chunk_<i>", whatever the row. *)
Lemma indexDocument_chunk_ids_nameless_sheet :
  NoDup (SheetNames nameless_workbook)
  /\ inserted_ids
       (trace (snd (indexDocument (C := nameless_collaborators) "in/book.xlsx"
                      (mkState fresh_engine tt []))))
     = ["book.xlsx_chunk_0"; "book.xlsx_chunk_0"].
Proof.
  split; [|vm_compute; reflexivity].
  apply (bool_decide_unpack _). vm_compute. exact I.
Qed.

(** ** Previews *)









(** A short chunk text gets the ellipsis too. *)
Example preview_of_short_text :
  inserted_metadata
    (trace (snd (indexDocument (C := demo_collaborators) "notes.txt"
                   (mkState fresh_engine (mkDemo [] []) []))))
  = [chunk_metadata "notes.txt" demo_unit 0 (mkChunk "alpha beta gamma" 0 3)]
  /\ m_preview (chunk_metadata "notes.txt" demo_unit 0 (mkChunk "alpha beta gamma" 0 3))
     = "alpha beta gamma...".
Proof. split; reflexivity. Qed.

(** ** 4.5 Statistics *)

Lemma initialize_ready {W} {C : Collaborators W} (st : State W) :
  isInitialized (engine st) = true -> initialize st = (Ok tt, st).
Proof.
  intros H. unfold initialize, bind, get_engine. rewrite H. reflexivity.
Qed.

Lemma initialize_indexPath {W} {C : Collaborators W} (st : State W) :
  indexPath (engine (snd (initialize st))) = indexPath (engine st).
Proof.
  unfold initialize, bind, get_engine, try_catch, lift_world, set_initialized, throw.
  destruct (isInitialized (engine st)); [reflexivity|].
  destruct (createIndex (world st)) as [[[]|e|] w1]; simpl; try reflexivity.
  destruct (JS.includes (message e) "already exists"); reflexivity.
Qed.

(** C10 (as the code has it).  Once [initialize] has succeeded (the
    engine was initialised already, or [createIndex] succeeded or failed
    with an "already exists" message), [getStats] returns: the statistics
    of the listed items when the listing succeeds, and the zero-valued
    statistics with the engine's [indexPath] when the listing throws,
    whatever the error. *)
Theorem getStats_swallows_listing_errors {W} {C : Collaborators W}
    (st st0 : State W) :
  initialize st = (Ok tt, st0) ->
  indexPath (engine st0) = indexPath (engine st)
  /\ (forall e w',
        listItems (world st0) = (Throw e, w') ->
        getStats st =
          (Ok {| totalChunks := 0; totalDocuments := 0; documents := [];
                 stats_indexPath := indexPath (engine st) |},
           mkState (engine st0) w' (trace st0)))
  /\ (forall items w',
        listItems (world st0) = (Ok items, w') ->
        let fileNames :=
          uniq (map (fun item => m_fileName (item_metadata item)) items) in
        getStats st =
          (Ok {| totalChunks := Z.of_nat (length items);
                 totalDocuments := Z.of_nat (length fileNames);
                 documents := fileNames;
                 stats_indexPath := indexPath (engine st) |},
           mkState (engine st0) w' (trace st0))).
Proof.
  intros Hinit.
  assert (Hpath : indexPath (engine st0) = indexPath (engine st)).
  { pose proof (initialize_indexPath st) as H. rewrite Hinit in H. exact H. }
  split; [exact Hpath|].
  unfold getStats, bind. rewrite Hinit.
  unfold get_engine, try_catch, lift_world, ret.
  split.
  - intros e w' E. rewrite E, Hpath. reflexivity.
  - intros items w' E. rewrite E, Hpath. reflexivity.
Qed.

Lemma getStats_swallows_listing_errors_witness :
  getStats (C := locked_collaborators) (mkState ready_engine tt [])
  = (Ok {| totalChunks := 0; totalDocuments := 0; documents := [];
           stats_indexPath := "./requirements-index" |},
     mkState ready_engine tt []).
Proof.
  exact (proj1 (proj2 (getStats_swallows_listing_errors
                         (C := locked_collaborators)
                         (mkState ready_engine tt []) (mkState ready_engine tt [])
                         eq_refl))
           (mkError "Index does not exist") tt eq_refl).
Defined.

(** C10 as the specification words it, for every engine state.  On an
    engine that is not initialised yet, a [createIndex] failure whose
    message lacks "already exists" is rethrown by [initialize], which
    [getStats] awaits outside its [try] block. *)
Lemma getStats_never_throws_counterexample :
  ~ (forall (W : Type) (C : Collaborators W) (st : State W) e st',
       getStats st <> (Throw e, st')).
Proof.
  intros H.
  apply (H unit locked_collaborators (mkState fresh_engine tt [])
           (mkError "EACCES: permission denied") (mkState fresh_engine tt [])).
  reflexivity.
Qed.

(** * Further properties of the engine *)

(** ** Initialisation *)

(** X1.  A successful [initialize] leaves the engine initialised, and from
    then on [initialize] returns at once: it calls nothing and changes
    nothing. *)
Theorem initialize_idempotent {W} {C : Collaborators W} (st st1 : State W) :
  initialize st = (Ok tt, st1) ->
  isInitialized (engine st1) = true
  /\ indexPath (engine st1) = indexPath (engine st)
  /\ debugMode (engine st1) = debugMode (engine st)
  /\ initialize st1 = (Ok tt, st1).
Proof.
  intros H.
  assert (Hinit : isInitialized (engine st1) = true
                  /\ indexPath (engine st1) = indexPath (engine st)
                  /\ debugMode (engine st1) = debugMode (engine st)).
  { revert H.
    unfold initialize, bind, get_engine, try_catch, lift_world, set_initialized,
      throw, ret.
    destruct (isInitialized (engine st)) eqn:E.
    - intros H. inversion H; subst. auto.
    - destruct (createIndex (world st)) as [[[]|e|] w1]; simpl.
      + intros H. inversion H; subst. auto.
      + destruct (JS.includes (message e) "already exists");
          intros H; inversion H; subst. auto.
      + discriminate. }
  destruct Hinit as (H1 & H2 & H3).
  repeat split; try assumption.
  unfold initialize, bind, get_engine. rewrite H1. reflexivity.
Qed.

Lemma initialize_idempotent_witness :
  initialize (C := demo_collaborators)
    (mkState ready_engine (mkDemo [] []) [])
  = (Ok tt, mkState ready_engine (mkDemo [] []) []).
Proof.
  exact (proj2 (proj2 (proj2
    (initialize_idempotent (C := demo_collaborators)
       (mkState fresh_engine (mkDemo [] []) [])
       (mkState ready_engine (mkDemo [] []) []) eq_refl)))).
Defined.

(** X2.  When [initialize] throws, the error is the one [createIndex]
    raised, its message lacks "already exists", and the engine is left as
    it was, not initialised, so the next call tries [createIndex] again. *)
Theorem initialize_failure {W} {C : Collaborators W} (st st1 : State W) e :
  initialize st = (Throw e, st1) ->
  engine st1 = engine st
  /\ isInitialized (engine st) = false
  /\ trace st1 = trace st
  /\ createIndex (world st) = (Throw e, world st1)
  /\ JS.includes (message e) "already exists" = false.
Proof.
  unfold initialize, bind, get_engine, try_catch, lift_world, set_initialized,
    throw, ret.
  destruct (isInitialized (engine st)) eqn:E; [discriminate|].
  destruct (createIndex (world st)) as [[[]|e'|] w1]; simpl; try discriminate.
  destruct (JS.includes (message e') "already exists") eqn:Ei; [discriminate|].
  intros H. inversion H; subst. simpl. auto.
Qed.

Lemma initialize_failure_witness :
  createIndex (Collaborators := locked_collaborators) tt
  = (Throw (mkError "EACCES: permission denied"), tt).
Proof.
  exact (proj1 (proj2 (proj2 (proj2
    (initialize_failure (C := locked_collaborators)
       (mkState fresh_engine tt []) (mkState fresh_engine tt [])
       (mkError "EACCES: permission denied") eq_refl))))).
Defined.

(** ** Statistics *)

Lemma uniq_In x xs : In x (uniq xs) <-> In x xs.
Proof.
  induction xs as [|y xs IH]; simpl; [tauto|].
  rewrite filter_In, IH.
  destruct (String.eqb_spec x y) as [->|Hne]; simpl.
  - split; auto.
  - split.
    + intros [->|[H _]]; auto.
    + intros [->|H]; auto.
Qed.

Lemma uniq_NoDup xs : NoDup (uniq xs).
Proof.
  induction xs as [|y xs IH]; simpl; constructor.
  - rewrite list_elem_of_In, filter_In. intros [_ H].
    rewrite String.eqb_refl in H. discriminate.
  - apply NoDup_ListNoDup, List.NoDup_filter, NoDup_ListNoDup, IH.
Qed.

Lemma uniq_length xs : (length (uniq xs) <= length xs)%nat.
Proof.
  induction xs as [|y xs IH]; simpl; [lia|].
  pose proof (filter_length_le (fun z => negb (String.eqb z y)) (uniq xs)). lia.
Qed.

Lemma getStats_inv {W} {C : Collaborators W} (st : State W) stats st' :
  getStats st = (Ok stats, st') ->
  exists st0,
    initialize st = (Ok tt, st0)
    /\ engine st' = engine st0
    /\ ((exists items w',
           listItems (world st0) = (Ok items, w')
           /\ documents stats =
                uniq (map (fun item => m_fileName (item_metadata item)) items)
           /\ totalChunks stats = Z.of_nat (length items)
           /\ totalDocuments stats = Z.of_nat (length (documents stats)))
        \/ (exists e w',
              listItems (world st0) = (Throw e, w')
              /\ documents stats = []
              /\ totalChunks stats = 0
              /\ totalDocuments stats = 0)).
Proof.
  unfold getStats, bind.
  destruct (initialize st) as [[[]|e|] st0]; try discriminate.
  unfold get_engine, try_catch, lift_world, ret.
  destruct (listItems (world st0)) as [[items|e|] w1] eqn:E; try discriminate;
    intros H; inversion H; subst; simpl; exists st0; split; trivial;
    (split; [reflexivity|]).
  - left. eauto 10.
  - right. eauto 10.
Qed.

(** X3.  The statistics are consistent: [documents] has no duplicates,
    [totalDocuments] is its length, there are never more documents than
    chunks, and there is no document exactly when there is no chunk. *)
Theorem getStats_consistent {W} {C : Collaborators W} (st : State W) stats st' :
  getStats st = (Ok stats, st') ->
  NoDup (documents stats)
  /\ totalDocuments stats = Z.of_nat (length (documents stats))
  /\ 0 <= totalDocuments stats <= totalChunks stats
  /\ (totalDocuments stats = 0 <-> totalChunks stats = 0).
Proof.
  intros H. apply getStats_inv in H as (st0 & _ & _ & [H|H]).
  - destruct H as (items & w' & _ & Hd & Hc & Ht).
    rewrite Ht, Hc, Hd. clear Ht Hc Hd.
    pose proof (uniq_length (map (fun item => m_fileName (item_metadata item)) items))
      as Hle.
    rewrite length_map in Hle.
    split; [apply uniq_NoDup|]. split; [reflexivity|]. split; [lia|].
    destruct items as [|item items]; simpl in *; [tauto|]. lia.
  - destruct H as (e & w' & _ & Hd & Hc & Ht). rewrite Hd, Hc, Ht.
    split; [constructor|]. simpl. repeat split; lia.
Qed.

Lemma getStats_consistent_witness :
  NoDup ["a.txt"; "b.txt"].
Proof.
  exact (proj1 (getStats_consistent (C := demo_collaborators)
                  (mkState ready_engine (mkDemo demo_items_two_files []) [])
                  {| totalChunks := 3; totalDocuments := 2;
                     documents := ["a.txt"; "b.txt"];
                     stats_indexPath := "./requirements-index" |}
                  _ eq_refl)).
Defined.

(** X4.  When the listing succeeds, [documents] holds exactly the file
    names of the listed items, and [totalChunks] counts the items. *)
Theorem getStats_documents {W} {C : Collaborators W}
    (st st0 : State W) items w' stats st' :
  initialize st = (Ok tt, st0) ->
  listItems (world st0) = (Ok items, w') ->
  getStats st = (Ok stats, st') ->
  totalChunks stats = Z.of_nat (length items)
  /\ forall name,
       In name (documents stats) <->
       exists item, In item items /\ m_fileName (item_metadata item) = name.
Proof.
  intros Hinit Hlist H. apply getStats_inv in H as (st0' & Hinit' & _ & H).
  rewrite Hinit in Hinit'. inversion Hinit'; subst st0'.
  destruct H as [(items' & w'' & Hl & Hd & Hc & _)|(e & w'' & Hl & _)];
    rewrite Hlist in Hl; inversion Hl; subst.
  split; [exact Hc|]. intros name. rewrite Hd, uniq_In, in_map_iff.
  split; intros (item & H1 & H2); eauto.
Qed.

Lemma getStats_documents_witness :
  In "b.txt" ["a.txt"; "b.txt"].
Proof.
  apply (proj2 (getStats_documents (C := demo_collaborators)
                  (mkState ready_engine (mkDemo demo_items_two_files []) [])
                  _ demo_items_two_files _
                  {| totalChunks := 3; totalDocuments := 2;
                     documents := ["a.txt"; "b.txt"];
                     stats_indexPath := "./requirements-index" |}
                  _ eq_refl eq_refl eq_refl) "b.txt").
  exists (demo_item "b.txt_chunk_0" "b.txt" "Reports are exported").
  split; [right; left; reflexivity|reflexivity].
Defined.

(** ** Lifecycle operations *)

Lemma bind_inv_ok {W A B} (m : M W A) (k : A -> M W B) (st : State W) b st' :
  bind m k st = (Ok b, st') ->
  exists a st1, m st = (Ok a, st1) /\ k a st1 = (Ok b, st').
Proof.
  unfold bind. destruct (m st) as [[a|e|] st1]; try discriminate. eauto.
Qed.

Lemma try_catch_wrap_throw {W A} (m : M W A) (pre : string) (st : State W) e st' :
  try_catch m (fun error => throw (mkError (String.append pre (message error)))) st
  = (Throw e, st') ->
  exists e0, m st = (Throw e0, st') /\ message e = String.append pre (message e0).
Proof.
  unfold try_catch, throw. destruct (m st) as [[a|e0|] st1]; try discriminate.
  intros H. inversion H; subst. eauto.
Qed.

Lemma try_catch_wrap_ok {W A} (m : M W A) (pre : string) (st : State W) a st' :
  try_catch m (fun error => throw (mkError (String.append pre (message error)))) st
  = (Ok a, st') ->
  m st = (Ok a, st').
Proof.
  unfold try_catch, throw. destruct (m st) as [[a0|e0|] st1]; auto; discriminate.
Qed.

(** X5.  [clearIndex] swallows exactly the errors whose message contains
    "does not exist".  An error it throws is the one [deleteIndex] raised,
    with a message that lacks those words, and the engine is unchanged.
    When it returns, either [deleteIndex] succeeded and the engine is no
    longer initialised, or [deleteIndex] failed with such a message and
    the engine, its initialised flag included, is as before. *)
Theorem clearIndex_outcome {W} {C : Collaborators W} {L : Lifecycle W}
    (st : State W) :
  trace (snd (clearIndex st)) = trace st
  /\ (forall e st1,
        clearIndex st = (Throw e, st1) ->
        deleteIndex (world st) = (Throw e, world st1)
        /\ JS.includes (message e) "does not exist" = false
        /\ engine st1 = engine st)
  /\ (forall st1,
        clearIndex st = (Ok tt, st1) ->
        (deleteIndex (world st) = (Ok tt, world st1)
         /\ isInitialized (engine st1) = false
         /\ indexPath (engine st1) = indexPath (engine st))
        \/ (exists e,
              deleteIndex (world st) = (Throw e, world st1)
              /\ JS.includes (message e) "does not exist" = true
              /\ engine st1 = engine st)).
Proof.
  unfold clearIndex, try_catch, bind, lift_world, set_initialized, throw, ret.
  destruct (deleteIndex (world st)) as [[[]|e0|] w1]; simpl.
  - split; [reflexivity|]. split; [discriminate|].
    intros st1 H. inversion H; subst. left. auto.
  - destruct (JS.includes (message e0) "does not exist") eqn:E; simpl.
    + split; [reflexivity|]. split; [discriminate|].
      intros st1 H. inversion H; subst. right. eauto.
    + split; [reflexivity|]. split; [|discriminate].
      intros e st1 H. inversion H; subst. auto.
  - split; [reflexivity|]. split; discriminate.
Qed.

(** X6.  After a [clearIndex] in which [deleteIndex] succeeded, the next
    [initialize] goes back to the store: it succeeds with [createIndex]
    and leaves the engine initialised again. *)
Theorem clearIndex_then_initialize {W} {C : Collaborators W} {L : Lifecycle W}
    (st st1 : State W) w2 :
  clearIndex st = (Ok tt, st1) ->
  deleteIndex (world st) = (Ok tt, world st1) ->
  createIndex (world st1) = (Ok tt, w2) ->
  initialize st1 =
    (Ok tt,
     mkState (mkEngine (indexPath (engine st)) true (debugMode (engine st)))
             w2 (trace st)).
Proof.
  unfold clearIndex, try_catch, bind, lift_world, set_initialized, throw, ret.
  destruct (deleteIndex (world st)) as [[[]|e0|] w1]; simpl;
    intros H Hd Hc; try discriminate.
  inversion H; subst. simpl in *.
  unfold initialize, bind, get_engine, try_catch, lift_world, set_initialized.
  simpl. rewrite Hc. reflexivity.
Qed.

Lemma clearIndex_then_initialize_witness :
  initialize (C := demo_collaborators)
    (mkState fresh_engine (mkDemo [] []) [])
  = (Ok tt, mkState ready_engine (mkDemo [] []) []).
Proof.
  exact (clearIndex_then_initialize (C := demo_collaborators) (L := demo_lifecycle)
           (mkState ready_engine (mkDemo demo_items_two_files []) [])
           (mkState fresh_engine (mkDemo [] []) []) (mkDemo [] [])
           eq_refl eq_refl eq_refl).
Defined.

(** X7.  [backupIndex] changes neither the engine nor the trace.  It
    returns the engine's [indexPath], the backup path and the clock value
    read before the copy; every error it throws is the error of the copy
    with "Backup failed: " put before its message. *)
Theorem backupIndex_outcome {W} {C : Collaborators W} {L : Lifecycle W}
    (path : string) (st : State W) :
  engine (snd (backupIndex path st)) = engine st
  /\ trace (snd (backupIndex path st)) = trace st
  /\ (forall info st1,
        backupIndex path st = (Ok info, st1) ->
        fs_copy (indexPath (engine st)) path (world st) = (Ok tt, world st1)
        /\ info = {| originalPath := indexPath (engine st);
                     backupPath := path;
                     timestamp := Date_now (world st) |})
  /\ (forall e st1,
        backupIndex path st = (Throw e, st1) ->
        exists e0,
          fs_copy (indexPath (engine st)) path (world st) = (Throw e0, world st1)
          /\ message e = String.append "Backup failed: " (message e0)).
Proof.
  unfold backupIndex, try_catch, bind, get_engine, lift_world, throw, ret.
  destruct (fs_copy (indexPath (engine st)) path (world st)) as [[[]|e0|] w1];
    simpl; (split; [reflexivity|]); (split; [reflexivity|]); split;
    try discriminate; intros x st1 H; inversion H; subst; simpl; eauto.
Qed.

Lemma initialize_ok_engine {W} {C : Collaborators W} (st st1 : State W) :
  initialize st = (Ok tt, st1) ->
  isInitialized (engine st1) = true
  /\ indexPath (engine st1) = indexPath (engine st).
Proof.
  intros H. split.
  - revert H.
    unfold initialize, bind, get_engine, try_catch, lift_world, set_initialized,
      throw, ret.
    destruct (isInitialized (engine st)) eqn:E.
    + intros H. inversion H; subst. exact E.
    + destruct (createIndex (world st)) as [[[]|e|] w1]; simpl.
      * intros H. inversion H; subst. reflexivity.
      * destruct (JS.includes (message e) "already exists");
          intros H; inversion H; subst. reflexivity.
      * discriminate.
  - pose proof (initialize_indexPath st) as Hp. rewrite H in Hp. exact Hp.
Qed.

Lemma clearIndex_indexPath {W} {C : Collaborators W} {L : Lifecycle W}
    (st : State W) :
  indexPath (engine (snd (clearIndex st))) = indexPath (engine st).
Proof.
  unfold clearIndex, try_catch, bind, lift_world, set_initialized, throw, ret.
  destruct (deleteIndex (world st)) as [[[]|e0|] w1]; simpl; try reflexivity.
  destruct (JS.includes (message e0) "does not exist"); reflexivity.
Qed.

(** X8.  Every error [restoreIndex] throws carries a message that begins
    with "Restore failed: ", whichever step failed.  When it returns, the
    backup was copied onto the engine's [indexPath], the engine is
    initialised, and the statistics are those of [getStats]: duplicate
    free and with the engine's [indexPath]. *)
Theorem restoreIndex_outcome {W} {C : Collaborators W} {L : Lifecycle W}
    (path : string) (st : State W) :
  (forall e st1,
     restoreIndex path st = (Throw e, st1) ->
     exists e0, message e = String.append "Restore failed: " (message e0))
  /\ (forall stats st1,
        restoreIndex path st = (Ok stats, st1) ->
        isInitialized (engine st1) = true
        /\ indexPath (engine st1) = indexPath (engine st)
        /\ stats_indexPath stats = indexPath (engine st)
        /\ NoDup (documents stats)
        /\ exists w1 w2,
             fs_copy path (indexPath (engine st)) w1 = (Ok tt, w2)).
Proof.
  split.
  - intros e st1 H. unfold restoreIndex in H.
    apply try_catch_wrap_throw in H as (e0 & _ & Hm). eauto.
  - intros stats st1 H. unfold restoreIndex in H.
    apply try_catch_wrap_ok in H.
    apply bind_inv_ok in H as ([] & s1 & Hclear & H).
    apply bind_inv_ok in H as (e & s1' & Hget & H).
    unfold get_engine in Hget. inversion Hget; subst e s1'. clear Hget.
    apply bind_inv_ok in H as ([] & s2 & Hcopy & H).
    apply bind_inv_ok in H as ([] & s3 & Hset & H).
    apply bind_inv_ok in H as ([] & s4 & Hinit & H).
    pose proof (clearIndex_indexPath st) as Hp1. rewrite Hclear in Hp1. simpl in Hp1.
    unfold lift_world in Hcopy.
    destruct (fs_copy path (indexPath (engine s1)) (world s1)) as [r w2] eqn:Ec.
    inversion Hcopy; subst r s2. clear Hcopy.
    unfold set_initialized in Hset. inversion Hset; subst s3. clear Hset.
    apply initialize_ok_engine in Hinit as [Hi4 Hp4]. simpl in Hp4.
    pose proof H as Hstats.
    apply getStats_inv in H as (st0 & Hinit0 & Heng & Hcases).
    apply initialize_ok_engine in Hinit0 as [Hi0 Hp0].
    assert (Hsp : stats_indexPath stats = indexPath (engine s4)).
    { revert Hstats. unfold getStats, bind.
      destruct (initialize s4) as [[[]|e|] s5] eqn:E5; try discriminate.
      pose proof (initialize_indexPath s4) as Hp5. rewrite E5 in Hp5. simpl in Hp5.
      unfold get_engine, try_catch, lift_world, ret.
      destruct (listItems (world s5)) as [[items|e|] w5]; try discriminate;
        intros Hs; inversion Hs; subst; simpl; exact Hp5. }
    rewrite Heng. split; [exact Hi0|].
    split; [congruence|]. split; [congruence|]. split.
    + destruct Hcases as [(items & w' & _ & Hd & _)|(e & w' & _ & Hd & _)];
        rewrite Hd; [apply uniq_NoDup|constructor].
    + rewrite Hp1 in Ec. eauto.
Qed.

Lemma restoreIndex_outcome_witness :
  exists e0,
    "Restore failed: ENOENT: no such file or directory"
    = String.append "Restore failed: " (message e0).
Proof.
  exact (proj1 (restoreIndex_outcome (C := locked_collaborators)
                  (L := locked_lifecycle) "backup" (mkState ready_engine tt []))
           (mkError "Restore failed: ENOENT: no such file or directory")
           (mkState ready_engine tt []) eq_refl).
Defined.

(** ** Exact text search *)

Lemma includes_empty s : JS.includes s EmptyString = true.
Proof. destruct s; reflexivity. Qed.

Lemma fold_collect_match searchText caseSensitive items acc :
  fold_left (collect_match searchText caseSensitive) items acc =
    acc ++ map match_of_item
             (List.filter (exact_match searchText caseSensitive) items).
Proof.
  revert acc. induction items as [|item items IH]; intros acc; simpl.
  - rewrite app_nil_r. reflexivity.
  - rewrite IH. unfold collect_match.
    destruct (exact_match searchText caseSensitive item); simpl;
      [rewrite <- app_assoc|]; reflexivity.
Qed.

(** X9.  Once [initialize] has succeeded, [findExactText] answers with
    the listed items whose text contains the search text (both in lower
    case unless the search is case sensitive), in the order of the
    listing and with the store's identifier; an empty search text selects
    every item.  A failure of the listing is not caught: it reaches the
    caller as it is. *)
Theorem findExactText_outcome {W} {C : Collaborators W}
    (searchText : string) (caseSensitive : bool) (st st0 : State W) :
  initialize st = (Ok tt, st0) ->
  (forall items w',
     listItems (world st0) = (Ok items, w') ->
     findExactText searchText caseSensitive st =
       (Ok (map match_of_item
              (List.filter (exact_match searchText caseSensitive) items)),
        mkState (engine st0) w' (trace st0))
     /\ (searchText = EmptyString ->
         List.filter (exact_match searchText caseSensitive) items = items))
  /\ (forall e w',
        listItems (world st0) = (Throw e, w') ->
        findExactText searchText caseSensitive st =
          (Throw e, mkState (engine st0) w' (trace st0))).
Proof.
  intros Hinit. unfold findExactText, bind, lift_world, ret. rewrite Hinit.
  split.
  - intros items w' ->. rewrite fold_collect_match. split; [reflexivity|].
    intros ->. apply filter_all. intros item _. unfold exact_match.
    destruct caseSensitive; apply includes_empty.
  - intros e w' ->. reflexivity.
Qed.

Lemma findExactText_outcome_witness :
  findExactText (C := demo_collaborators) "user" false
    (mkState fresh_engine (mkDemo demo_items_two_files []) [])
  = (Ok [match_of_item (demo_item "a.txt_chunk_0" "a.txt" "The User shall log in");
         match_of_item (demo_item "a.txt_chunk_1" "a.txt" "the user may log out")],
     mkState ready_engine (mkDemo demo_items_two_files []) []).
Proof.
  exact (proj1 (proj1 (findExactText_outcome (C := demo_collaborators) "user" false
                         (mkState fresh_engine (mkDemo demo_items_two_files []) [])
                         (mkState ready_engine (mkDemo demo_items_two_files []) [])
                         eq_refl)
                  demo_items_two_files (mkDemo demo_items_two_files []) eq_refl)).
Defined.

(** ** Search analysis *)

Lemma group_step_ok fileGroups r :
  (fileGroups !! fileName r <> None \/ is_prototype_key (fileName r) = false) ->
  group_step fileGroups r =
    Ok (<[fileName r := default [] (fileGroups !! fileName r) ++ [r]]> fileGroups).
Proof.
  unfold group_step. destruct (fileGroups !! fileName r) as [group|]; [reflexivity|].
  intros [H|H]; [congruence|]. rewrite H. reflexivity.
Qed.

Lemma group_results_lookup results : forall fileGroups groups,
  group_results fileGroups results = Ok groups ->
  forall k,
    groups !! k =
      match List.filter (fun r => String.eqb (fileName r) k) results with
      | [] => fileGroups !! k
      | l => Some (default [] (fileGroups !! k) ++ l)
      end.
Proof.
  induction results as [|r rest IH]; intros fileGroups groups H k.
  - simpl in H. inversion H. reflexivity.
  - cbn [group_results] in H.
    destruct (group_step fileGroups r) as [g1| |] eqn:E; try discriminate.
    assert (Hg1 : g1 = <[fileName r := default [] (fileGroups !! fileName r) ++ [r]]>
                         fileGroups).
    { unfold group_step in E. destruct (fileGroups !! fileName r) as [group|].
      - inversion E. reflexivity.
      - destruct (is_prototype_key (fileName r)); inversion E. reflexivity. }
    rewrite (IH g1 groups H k). cbn [List.filter].
    destruct (String.eqb_spec (fileName r) k) as [Hk|Hk].
    + subst k g1. rewrite lookup_insert_eq. simpl.
      destruct (List.filter _ rest); rewrite <- ?app_assoc; reflexivity.
    + subst g1. rewrite lookup_insert_ne by exact Hk. reflexivity.
Qed.

Lemma group_results_total results : forall fileGroups,
  Forall (fun r => is_prototype_key (fileName r) = false) results ->
  exists groups, group_results fileGroups results = Ok groups.
Proof.
  induction results as [|r rest IH]; intros fileGroups H; [simpl; eauto|].
  inversion H as [|? ? Hr Hrest]; subst. cbn [group_results].
  rewrite group_step_ok by (right; exact Hr). apply IH, Hrest.
Qed.

Lemma group_results_prototype results : forall fileGroups,
  (forall k, is_prototype_key k = true -> fileGroups !! k = None) ->
  Exists (fun r => is_prototype_key (fileName r) = true) results ->
  group_results fileGroups results =
    Throw (mkError "fileGroups[result.fileName].push is not a function").
Proof.
  induction results as [|r rest IH]; intros fileGroups Hown H;
    [inversion H|].
  cbn [group_results]. unfold group_step.
  destruct (is_prototype_key (fileName r)) eqn:Er.
  - rewrite (Hown _ Er). reflexivity.
  - inversion H as [? ? Hr|? ? Hrest]; subst; [congruence|].
    destruct (fileGroups !! fileName r) as [group|] eqn:El;
      apply IH; try exact Hrest; intros k Hk;
      (rewrite lookup_insert_ne by congruence); apply Hown, Hk.
Qed.

Lemma slice0_length {A} (l : list A) (k : Z) :
  Z.of_nat (length (JS.slice l 0 k)) = JS.rel_index (Z.of_nat (length l)) k.
Proof.
  unfold JS.slice.
  assert (E : JS.rel_index (Z.of_nat (length l)) 0 = 0)
    by (unfold JS.rel_index; simpl; lia).
  rewrite E.
  assert (H : 0 <= JS.rel_index (Z.of_nat (length l)) k <= Z.of_nat (length l))
    by (unfold JS.rel_index; destruct (Z.ltb_spec k 0); lia).
  set (r := JS.rel_index (Z.of_nat (length l)) k) in *. clearbody r.
  rewrite length_firstn, length_skipn. lia.
Qed.

Lemma filter_none' {A} (f : A -> bool) (l : list A) :
  (forall x, In x l -> f x = false) -> List.filter f l = [].
Proof.
  induction l as [|x l IH]; intros H; [reflexivity|]. simpl.
  rewrite (H x) by (left; reflexivity). apply IH. intros y Hy. apply H. right. exact Hy.
Qed.

Lemma sorted_matches_first l :
  StronglySorted key_ge l ->
  l = List.filter hasDirectMatch l
      ++ List.filter (fun r => negb (hasDirectMatch r)) l.
Proof.
  induction 1 as [|x l Hl IH Hx]; [reflexivity|]. simpl.
  destruct (hasDirectMatch x) eqn:E; simpl; [f_equal; exact IH|].
  assert (Hnone : forall y, In y l -> hasDirectMatch y = false).
  { intros y Hy. rewrite Forall_forall in Hx.
    destruct (hasDirectMatch y) eqn:Ey; [|reflexivity].
    rewrite (hasDirectMatch_key_ge x y (Hx y (proj2 (list_elem_of_In _ _) Hy)) Ey)
      in E. discriminate. }
  rewrite (filter_none' hasDirectMatch l Hnone).
  rewrite filter_all; [reflexivity|].
  intros y Hy. rewrite (Hnone y Hy). reflexivity.
Qed.

Lemma analyzeSearch_inv {W} {C : Collaborators W}
    query options (st : State W) a st' :
  analyzeSearch query options st = (Ok a, st') ->
  search query 20 (mkOptions true (minScore options)) st = (Ok (an_results a), st')
  /\ group_results ∅ (an_results a) = Ok (an_fileGroups a)
  /\ an_totalResults a = Z.of_nat (length (an_results a))
  /\ an_filesRepresented a = Z.of_nat (size (an_fileGroups a))
  /\ an_withTextMatches a =
       Z.of_nat (length (List.filter hasDirectMatch (an_results a)))
  /\ an_withoutTextMatches a =
       Z.of_nat (length (List.filter (fun r => negb (hasDirectMatch r))
                           (an_results a))).
Proof.
  unfold analyzeSearch. intros H.
  apply bind_inv_ok in H as (results & st1 & Hsearch & H).
  apply bind_inv_ok in H as (groups & st2 & Hgroup & H).
  unfold lift_result in Hgroup. inversion Hgroup; subst st2.
  unfold ret in H. inversion H; subst. simpl. auto 10.
Qed.

(** X11.  The report of [analyzeSearch] adds up: at most 20 results, the
    results with a direct match followed by those without one, the two
    counts summing to the total; [fileGroups] holds, for each file name
    among the results, the results of that file in result order, and
    [filesRepresented] is the number of distinct file names. *)
Theorem analyzeSearch_report {W} {C : Collaborators W}
    query options (st : State W) a st' :
  analyzeSearch query options st = (Ok a, st') ->
  0 <= an_totalResults a <= 20
  /\ an_withTextMatches a + an_withoutTextMatches a = an_totalResults a
  /\ an_results a =
       List.filter hasDirectMatch (an_results a)
       ++ List.filter (fun r => negb (hasDirectMatch r)) (an_results a)
  /\ (forall name,
        an_fileGroups a !! name =
          match List.filter (fun r => String.eqb (fileName r) name) (an_results a) with
          | [] => None
          | group => Some group
          end)
  /\ an_filesRepresented a =
       Z.of_nat (size (list_to_set (map fileName (an_results a)) : gset string)).
Proof.
  intros H.
  apply analyzeSearch_inv in H as (Hsearch & Hgroup & Ht & Hf & Hw & Hwo).
  apply search_inv in Hsearch as (emb & w & w' & cands & _ & Hrank).
  pose proof (rank_sorted query 20 (mkOptions true (minScore options)) cands eq_refl)
    as Hsorted.
  rewrite <- Hrank in Hsorted.
  pose proof (sorted_matches_first _ Hsorted) as Hsplit.
  assert (Hlook : forall name,
             an_fileGroups a !! name =
               match List.filter (fun r => String.eqb (fileName r) name) (an_results a) with
               | [] => None
               | group => Some group
               end).
  { intros name. rewrite (group_results_lookup _ _ _ Hgroup name).
    rewrite lookup_empty. destruct (List.filter _ _); reflexivity. }
  split.
  { rewrite Ht, Hrank. unfold rank. rewrite slice0_length.
    unfold JS.rel_index. simpl. lia. }
  split.
  { rewrite Hw, Hwo, Ht. rewrite Hsplit at 3. rewrite length_app. lia. }
  split; [exact Hsplit|]. split; [exact Hlook|].
  rewrite Hf. f_equal. rewrite <- size_dom. f_equal.
  apply set_eq. intros name.
  rewrite elem_of_dom, elem_of_list_to_set, Hlook, list_elem_of_In, in_map_iff.
  split.
  - intros Hsome.
    destruct (List.filter (fun r => String.eqb (fileName r) name) (an_results a))
      as [|r l] eqn:E; [destruct Hsome; discriminate|].
    assert (Hin : In r (List.filter (fun r => String.eqb (fileName r) name) (an_results a)))
      by (rewrite E; left; reflexivity).
    apply filter_In in Hin as [Hin Hname]. apply String.eqb_eq in Hname. eauto.
  - intros (r & Hname & Hin).
    assert (Hin' : In r (List.filter (fun r => String.eqb (fileName r) name) (an_results a)))
      by (apply filter_In; split; [exact Hin|apply String.eqb_eq, Hname]).
    destruct (List.filter (fun r => String.eqb (fileName r) name) (an_results a))
      as [|r' l]; [destruct Hin'|eexists; reflexivity].
Qed.

Lemma analyzeSearch_report_witness :
  exists a,
    analyzeSearch (C := demo_collaborators) "login" default_options
      (mkState fresh_engine (mkDemo [] login_candidates) [])
    = (Ok a, mkState ready_engine (mkDemo [] login_candidates) [])
    /\ an_withTextMatches a + an_withoutTextMatches a = an_totalResults a
    /\ an_totalResults a = 3.
Proof.
  eexists. split; [reflexivity|]. split; [|reflexivity].
  exact (proj1 (proj2 (analyzeSearch_report (C := demo_collaborators) "login"
                         default_options
                         (mkState fresh_engine (mkDemo [] login_candidates) [])
                         _ _ eq_refl))).
Defined.

(** X12.  The grouping of [analyzeSearch] reads [fileGroups[name]] before
    it creates a group, and a name that every object inherits (such as
    "constructor" or "toString") reads as present: when a result has such
    a file name the analysis throws a [TypeError]; when no result has one
    the analysis returns the results of its search. *)
Theorem analyzeSearch_inherited_names {W} {C : Collaborators W}
    query options (st : State W) results st1 :
  search query 20 (mkOptions true (minScore options)) st = (Ok results, st1) ->
  (Exists (fun r => is_prototype_key (fileName r) = true) results ->
   analyzeSearch query options st =
     (Throw (mkError "fileGroups[result.fileName].push is not a function"), st1))
  /\ (Forall (fun r => is_prototype_key (fileName r) = false) results ->
      exists a,
        analyzeSearch query options st = (Ok a, st1) /\ an_results a = results).
Proof.
  intros Hsearch. unfold analyzeSearch, bind. rewrite Hsearch.
  unfold lift_result, ret. split.
  - intros Hex. rewrite group_results_prototype; [reflexivity| |exact Hex].
    intros k _. apply lookup_empty.
  - intros Hall. destruct (group_results_total results ∅ Hall) as (groups & ->).
    eexists. split; reflexivity.
Qed.

Lemma analyzeSearch_inherited_names_witness :
  analyzeSearch (C := demo_collaborators) "login" default_options
    inherited_name_state
  = (Throw (mkError "fileGroups[result.fileName].push is not a function"),
     inherited_name_state).
Proof.
  apply (proj1 (analyzeSearch_inherited_names (C := demo_collaborators) "login"
                  default_options inherited_name_state _ inherited_name_state
                  eq_refl)).
  constructor. reflexivity.
Defined.

(** ** Size and order of the search results *)

Lemma js_sort_length {A} (cmp : A -> A -> Q) l : length (js_sort cmp l) = length l.
Proof. apply Permutation_length, js_sort_perm. Qed.

(** X13.  [search] asks the store for [max(3 * topK, 50)] candidates,
    never fewer than [topK], and returns the first [topK] of those that
    pass the score filter: for [topK >= 0] exactly [min(topK, kept)]
    results.  A negative [topK] is taken from the end by [slice]: the
    last [-topK] kept results are dropped instead. *)
Theorem search_result_count {W} {C : Collaborators W}
    query topK opts (st : State W) out st' :
  search query topK opts st = (Ok out, st') ->
  exists queryEmbedding w w' candidates,
    queryItems queryEmbedding (Z.max (topK * 3) 50) w = (Ok candidates, w')
    /\ topK <= Z.max (topK * 3) 50
    /\ (length out <= length candidates)%nat
    /\ let kept :=
         if negb (Qle_bool (minScore opts) 0)
         then List.filter (fun r => Qle_bool (minScore opts) (score r))
                (map (processResult query opts) candidates)
         else map (processResult query opts) candidates in
       (0 <= topK -> Z.of_nat (length out) = Z.min topK (Z.of_nat (length kept)))
       /\ (topK < 0 ->
           Z.of_nat (length out) = Z.max (Z.of_nat (length kept) + topK) 0).
Proof.
  intros H. apply search_inv in H as (emb & w & w' & candidates & Hq & ->).
  exists emb, w, w', candidates. split; [exact Hq|]. split; [lia|].
  set (kept := if negb (Qle_bool (minScore opts) 0)
               then List.filter (fun r => Qle_bool (minScore opts) (score r))
                      (map (processResult query opts) candidates)
               else map (processResult query opts) candidates).
  assert (Hkept : (length kept <= length candidates)%nat).
  { unfold kept. destruct (negb _).
    - pose proof (filter_length_le (fun r => Qle_bool (minScore opts) (score r))
                    (map (processResult query opts) candidates)) as Hle.
      rewrite length_map in Hle. exact Hle.
    - rewrite length_map. lia. }
  assert (Hlen : Z.of_nat (length (rank query topK opts candidates)) =
                 JS.rel_index (Z.of_nat (length kept)) topK).
  { unfold rank. fold kept. rewrite slice0_length.
    destruct (includeTextMatches opts); [rewrite js_sort_length|]; reflexivity. }
  assert (Hb : 0 <= JS.rel_index (Z.of_nat (length kept)) topK
               <= Z.of_nat (length kept))
    by (unfold JS.rel_index; destruct (Z.ltb_spec topK 0); lia).
  split; [lia|]. cbv zeta. rewrite Hlen. unfold JS.rel_index.
  split; intros Hk; destruct (Z.ltb_spec topK 0); lia.
Qed.

Lemma search_result_count_witness :
  exists out st',
    search (C := demo_collaborators) "login" 2 default_options
      (mkState fresh_engine (mkDemo [] login_candidates) []) = (Ok out, st')
    /\ length out = 2%nat.
Proof.
  eexists _, _. split; [reflexivity|].
  destruct (search_result_count (C := demo_collaborators) "login" 2 default_options
              (mkState fresh_engine (mkDemo [] login_candidates) []) _ _ eq_refl)
    as (emb & w & w' & cands & _ & _ & _ & _).
  reflexivity.
Defined.

Lemma js_sort_sorted_id {A} (cmp : A -> A -> Q) l :
  StronglySorted (fun a b => Qle_bool (cmp a b) 0 = true) l -> js_sort cmp l = l.
Proof.
  induction 1 as [|x l Hl IH Hx]; [reflexivity|].
  simpl. rewrite IH. destruct l as [|y l]; [reflexivity|]. simpl.
  inversion Hx as [|? ? Hxy _]; subst. rewrite Hxy. reflexivity.
Qed.

Lemma StronglySorted_filter {A} (R : A -> A -> Prop) (f : A -> bool) l :
  StronglySorted R l -> StronglySorted R (List.filter f l).
Proof.
  induction 1 as [|x l Hl IH Hx]; [constructor|]. simpl.
  destruct (f x); [|exact IH]. constructor; [exact IH|].
  rewrite Forall_forall in Hx. apply Forall_forall. intros y Hy.
  apply Hx, list_elem_of_In. apply list_elem_of_In, filter_In in Hy as [Hy _].
  exact Hy.
Qed.

Lemma StronglySorted_map {A B} (R : B -> B -> Prop) (S : A -> A -> Prop)
    (g : A -> B) l :
  (forall a b, In a l -> In b l -> S a b -> R (g a) (g b)) ->
  StronglySorted S l -> StronglySorted R (map g l).
Proof.
  intros HRS H. induction H as [|x l Hl IH Hx]; [constructor|]. simpl.
  constructor.
  - apply IH. intros a b Ha Hb. apply HRS; right; assumption.
  - rewrite Forall_forall in Hx. apply Forall_forall. intros y Hy.
    apply list_elem_of_In, in_map_iff in Hy as (a & <- & Ha).
    apply HRS; [left; reflexivity|right; exact Ha|].
    apply Hx, list_elem_of_In, Ha.
Qed.

Lemma slice_map {A B} (g : A -> B) (l : list A) (i k : Z) :
  JS.slice (map g l) i k = map g (JS.slice l i k).
Proof.
  unfold JS.slice. rewrite length_map, skipn_map, firstn_map. reflexivity.
Qed.

(** X14.  When no candidate contains a query token and the store answers
    in descending order of score, the lexical re-ranking changes nothing:
    with and without [includeTextMatches], [search] returns the same
    chunks with the same scores in the same order. *)
Theorem rank_without_matches (query : string) (topK : Z) (minS : Q)
    (candidates : list QueryResult) :
  StronglySorted (fun a b => (qr_score b <= qr_score a)%Q) candidates ->
  Forall (fun c => textMatches (processResult query (mkOptions true minS) c) = [])
    candidates ->
  map (fun r => (score r, fileName r, chunkIndex r, text r))
    (rank query topK (mkOptions true minS) candidates)
  = map (fun r => (score r, fileName r, chunkIndex r, text r))
      (rank query topK (mkOptions false minS) candidates).
Proof.
  intros Hsorted Hnone. unfold rank.
  cbn [includeTextMatches minScore].
  set (keep := fun c : QueryResult => Qle_bool minS (qr_score c)).
  assert (Hf : forall o,
             List.filter (fun r => Qle_bool minS (score r))
               (map (processResult query o) candidates)
             = map (processResult query o) (List.filter keep candidates)).
  { intros o. rewrite filter_map_comm. reflexivity. }
  assert (Hkey : forall l,
             StronglySorted (fun a b => (qr_score b <= qr_score a)%Q) l ->
             (forall c, In c l -> In c candidates) ->
             js_sort compareFn (map (processResult query (mkOptions true minS)) l)
             = map (processResult query (mkOptions true minS)) l).
  { intros l Hl Hsub. apply js_sort_sorted_id.
    apply (StronglySorted_map _ (fun a b => (qr_score b <= qr_score a)%Q));
      [|exact Hl].
    intros a b Ha Hb Hab. apply compareFn_key.
    rewrite Forall_forall in Hnone.
    pose proof (Hnone a (proj2 (list_elem_of_In _ _) (Hsub a Ha))) as Hna.
    pose proof (Hnone b (proj2 (list_elem_of_In _ _) (Hsub b Hb))) as Hnb.
    revert Hna Hnb. unfold key_ge, hasDirectMatch, textMatchScore, textMatches.
    unfold processResult. cbn [lexical includeTextMatches score].
    rewrite !analyse_matches_spec. cbn [lx_textMatches lx_hasDirectMatch
                                          lx_textMatchScore].
    intros Hna Hnb. right.
    assert (He : forall t,
               List.filter (token_matches t) (JS.split_ws (JS.toLowerCase query)) = [] ->
               existsb (token_matches t) (JS.split_ws (JS.toLowerCase query)) = false).
    { intros t Ht. apply not_true_is_false. rewrite existsb_filter. congruence. }
    rewrite (He _ Hna), (He _ Hnb), Hna, Hnb.
    split; [reflexivity|]. right. split; [reflexivity|exact Hab]. }
  destruct (negb (Qle_bool minS 0)).
  - rewrite !Hf, Hkey;
      [|apply StronglySorted_filter, Hsorted
       |intros c Hc; apply filter_In in Hc as [Hc _]; exact Hc].
    rewrite !slice_map, !map_map. reflexivity.
  - rewrite Hkey; [|exact Hsorted|auto].
    rewrite !slice_map, !map_map. reflexivity.
Qed.

Lemma rank_without_matches_witness :
  map (fun r => (score r, fileName r, chunkIndex r, text r))
    (rank "audit" 2 (mkOptions true 0%Q) login_candidates)
  = map (fun r => (score r, fileName r, chunkIndex r, text r))
      (rank "audit" 2 (mkOptions false 0%Q) login_candidates).
Proof.
  apply (rank_without_matches "audit" 2 0%Q login_candidates).
  - repeat constructor; vm_compute; discriminate.
  - repeat constructor.
Defined.

(** ** More on the chunker *)

(** X15.  With a positive stride and a non-negative overlap no content is
    lost: every non-empty word of the text lies in the window of a chunk
    that [splitIntoChunks] returns. *)
Theorem splitIntoChunks_coverage (text : string) (chunkSize overlap : Z)
    (fuel : nat) (j : nat) (w : string) :
  0 < chunkSize - overlap -> 0 <= overlap ->
  (length (JS.split_ws text) <= fuel)%nat ->
  JS.split_ws text !! j = Some w -> w <> EmptyString ->
  exists chunks c,
    splitIntoChunks fuel text chunkSize overlap = Ok chunks
    /\ In c chunks
    /\ startIndex c <= Z.of_nat j < startIndex c + wordCount c.
Proof.
  intros Hs Hov Hfuel Hw Hne.
  set (words := JS.split_ws text) in *.
  set (stride := chunkSize - overlap) in *.
  pose proof (lookup_lt_Some _ _ _ Hw) as Hj.
  set (k := Z.of_nat j / stride).
  assert (Hk0 : 0 <= k) by (apply Z.div_pos; lia).
  pose proof (Z.div_mod (Z.of_nat j) stride ltac:(lia)) as Hdm.
  pose proof (Z.mod_pos_bound (Z.of_nat j) stride Hs) as Hmod.
  fold k in Hdm.
  set (o := Z.of_nat (Z.to_nat k) * stride).
  assert (Ho : o = stride * k) by (unfold o; rewrite Z2Nat.id by exact Hk0; lia).
  assert (Hin : In o (offsets (Z.of_nat (length words)) stride)).
  { apply offsets_spec; [exact Hs|]. exists (Z.to_nat k). split; [reflexivity|].
    rewrite Ho. lia. }
  assert (Hnb : nonblank words chunkSize o = true).
  { apply (nonblank_lookup words chunkSize o j w); try assumption.
    - apply split_ws_no_space.
    - rewrite Ho. nia.
    - unfold stride in *. lia.
    - rewrite Ho. unfold stride in *. lia. }
  exists (map (window words chunkSize)
            (List.filter (nonblank words chunkSize)
               (offsets (Z.of_nat (length words)) stride))),
         (window words chunkSize o).
  split; [apply run_loop_offsets; assumption|]. split.
  - apply in_map, filter_In. split; assumption.
  - cbn [window startIndex wordCount]. rewrite Ho. unfold stride in *. lia.
Qed.

Lemma splitIntoChunks_coverage_witness :
  exists chunks c,
    splitIntoChunks 3 "a b c" 2 1 = Ok chunks
    /\ In c chunks
    /\ startIndex c <= 2 < startIndex c + wordCount c.
Proof.
  exact (splitIntoChunks_coverage "a b c" 2 1 3 2 "c"
           ltac:(reflexivity) ltac:(discriminate) ltac:(simpl; lia)
           eq_refl ltac:(discriminate)).
Defined.










(** ** Whitespace normalisation *)

Lemma collapse_ws_step c s :
  collapse_ws (String c s) =
    if JS.is_space c then
      if starts_space s then collapse_ws s else String " " (collapse_ws s)
    else String c (collapse_ws s).
Proof. destruct s; reflexivity. Qed.

Lemma join_cons_char c w ws :
  JS.join " " (String c w :: ws) = String c (JS.join " " (w :: ws)).
Proof. destruct ws; reflexivity. Qed.

Lemma collapse_ws_join s : collapse_ws s = JS.join " " (JS.split_ws s).
Proof.
  induction s as [|c s IH]; [reflexivity|].
  rewrite collapse_ws_step, split_ws_step.
  destruct (split_ws_cons s) as (w & ws & E).
  destruct (JS.is_space c).
  - destruct (starts_space s); [exact IH|].
    rewrite IH, E. reflexivity.
  - rewrite E, join_cons_char, IH, E. reflexivity.
Qed.


(** X17.  The clean-up before an embedding request, [trim] followed by
    [replace(/\s+/g, ' ')], sends the words of the trimmed text joined by
    single spaces; two texts with the same words are therefore sent to
    the provider as the same request. *)
Theorem generateEmbedding_normalises {W} {C : Collaborators W}
    (t1 t2 : string) (st : State W) :
  generateEmbedding t1 st =
    lift_world (embeddings_create (JS.join " " (JS.split_ws (JS.trim t1)))) st
  /\ (JS.split_ws (JS.trim t1) = JS.split_ws (JS.trim t2) ->
      generateEmbedding t1 st = generateEmbedding t2 st).
Proof.
  unfold generateEmbedding. rewrite !collapse_ws_join. split; [reflexivity|].
  intros ->. reflexivity.
Qed.

Lemma generateEmbedding_normalises_witness :
  generateEmbedding (C := demo_collaborators) "  user   login "
    (mkState ready_engine (mkDemo [] []) [])
  = generateEmbedding (C := demo_collaborators) "user login"
      (mkState ready_engine (mkDemo [] []) []).
Proof.
  exact (proj2 (generateEmbedding_normalises (C := demo_collaborators)
                  "  user   login " "user login"
                  (mkState ready_engine (mkDemo [] []) []))
           eq_refl).
Defined.



(** ** The report of [indexDocument] *)








Lemma keeps_throw {W A} e : keeps_engine (throw e : M W A).
Proof. intros st. reflexivity. Qed.













(** ** Formats the engine does not read *)

(** X20.  A file whose lower-cased extension is none of .pdf, .docx, .xlsx,
    .xls, .txt and .md is rejected with "Unsupported file format: <ext>"
    before anything is read: [extractTextFromFile] leaves the state as it
    found it, and [indexDocument] throws the same error right after
    [initialize], with nothing embedded and nothing inserted. *)
Theorem indexDocument_unsupported_format {W} {C : Collaborators W}
    (filePath : string) (st st0 : State W) :
  ~ In (JS.toLowerCase (path_extname filePath))
       [".pdf"; ".docx"; ".xlsx"; ".xls"; ".txt"; ".md"] ->
  extractTextFromFile filePath st =
    (Throw (mkError (String.append "Unsupported file format: "
                       (JS.toLowerCase (path_extname filePath)))), st)
  /\ (initialize st = (Ok tt, st0) ->
      indexDocument filePath st =
        (Throw (mkError (String.append "Unsupported file format: "
                           (JS.toLowerCase (path_extname filePath)))), st0)).
Proof.
  intros Hext.
  assert (E : forall s,
             In s [".pdf"; ".docx"; ".xlsx"; ".xls"; ".txt"; ".md"] ->
             String.eqb (JS.toLowerCase (path_extname filePath)) s = false).
  { intros s Hs. apply String.eqb_neq. intros Heq. apply Hext.
    rewrite Heq. exact Hs. }
  assert (Hthrow : forall s : State W,
             extractTextFromFile filePath s =
               (Throw (mkError (String.append "Unsupported file format: "
                                  (JS.toLowerCase (path_extname filePath)))), s)).
  { intros s. unfold extractTextFromFile. cbv zeta.
    rewrite (E ".pdf"), (E ".docx"), (E ".xlsx"), (E ".xls"), (E ".txt"), (E ".md")
      by (simpl; tauto).
    reflexivity. }
  split; [apply Hthrow|].
  intros Hinit. unfold indexDocument, bind. rewrite Hinit, Hthrow. reflexivity.
Qed.

Lemma indexDocument_unsupported_format_witness :
  indexDocument (C := csv_collaborators) "data.CSV" (mkState fresh_engine tt [])
  = (Throw (mkError "Unsupported file format: .csv"), mkState ready_engine tt []).
Proof.
  refine (proj2 (indexDocument_unsupported_format (C := csv_collaborators)
                   "data.CSV" (mkState fresh_engine tt [])
                   (mkState ready_engine tt []) _) eq_refl).
  vm_compute. intuition discriminate.
Defined.

(** ** The indexing loop of the command line *)




(** ** Runs that end *)

Lemma ends_ret {W A} (a : A) : ends (ret a : M W A).
Proof. intros st. discriminate. Qed.

Lemma ends_throw {W A} e : ends (throw e : M W A).
Proof. intros st. discriminate. Qed.

Lemma ends_emit {W} e : ends (emit e : M W unit).
Proof. intros st. discriminate. Qed.

Lemma ends_get_engine {W} : ends (get_engine : M W Engine).
Proof. intros st. discriminate. Qed.

Lemma ends_set_initialized {W} b : ends (set_initialized b : M W unit).
Proof. intros st. discriminate. Qed.

Lemma ends_lift_world {W A} (f : W -> result A * W) :
  (forall w, fst (f w) <> OutOfFuel) -> ends (lift_world f).
Proof.
  intros Hf st. unfold lift_world. specialize (Hf (world st)).
  destruct (f (world st)). exact Hf.
Qed.

Lemma ends_lift_result {W A} (r : result A) :
  r <> OutOfFuel -> ends (lift_result r : M W A).
Proof. intros Hr st. exact Hr. Qed.

Lemma ends_bind {W A B} (m : M W A) (k : A -> M W B) :
  ends m -> (forall a, ends (k a)) -> ends (bind m k).
Proof.
  intros Hm Hk st. unfold bind. specialize (Hm st).
  destruct (m st) as [[a|e|] st1]; simpl in *;
    [apply Hk|discriminate|contradiction].
Qed.

Lemma ends_try_catch {W A} (m : M W A) (h : Error -> M W A) :
  ends m -> (forall e, ends (h e)) -> ends (try_catch m h).
Proof.
  intros Hm Hh st. unfold try_catch. specialize (Hm st).
  destruct (m st) as [[a|e|] st1]; simpl in *;
    [discriminate|apply Hh|contradiction].
Qed.

Lemma excel_rows_ends sheets names : excel_rows sheets names <> OutOfFuel.
Proof.
  induction names as [|name names IH]; cbn [excel_rows]; [discriminate|].
  destruct (sheets !! name); [|discriminate].
  destruct (excel_rows sheets names); [discriminate|discriminate|exact IH].
Qed.

Section Ends.
Context {W : Type} {C : Collaborators W}.
Hypothesis HC : collaborators_end C.

Lemma ends_initialize : ends (initialize : M W unit).
Proof.
  destruct HC as (Hc & _).
  unfold initialize. apply ends_bind; [apply ends_get_engine|]. intros e.
  destruct (isInitialized e); [apply ends_ret|].
  apply ends_try_catch.
  - apply ends_bind; [apply ends_lift_world, Hc|].
    intros _. apply ends_set_initialized.
  - intros err. destruct (JS.includes _ _);
      [apply ends_set_initialized|apply ends_throw].
Qed.

Lemma ends_extractTextFromFile filePath : ends (extractTextFromFile filePath).
Proof.
  destruct HC as (_ & _ & _ & Hpdf & Hdocx & Hutf & Hx).
  unfold extractTextFromFile. cbv zeta.
  destruct (String.eqb _ ".pdf");
    [apply ends_bind; [apply ends_lift_world, Hpdf|intros; apply ends_ret]|].
  destruct (String.eqb _ ".docx");
    [apply ends_bind; [apply ends_lift_world, Hdocx|intros; apply ends_ret]|].
  destruct (_ || _).
  { apply ends_bind; [|intros; apply ends_ret].
    unfold extractTextFromExcel.
    apply ends_bind; [apply ends_lift_world, Hx|].
    intros wb. apply ends_lift_result, excel_rows_ends. }
  destruct (_ || _);
    [apply ends_bind; [apply ends_lift_world, Hutf|intros; apply ends_ret]|].
  apply ends_throw.
Qed.

Lemma ends_indexChunk filePath data i callback :
  ends (indexChunk filePath data i callback).
Proof.
  destruct HC as (_ & Hins & Hemb & _).
  destruct callback as [chunk batchIndex|item]; unfold indexChunk, generateEmbedding.
  - apply ends_bind; [apply ends_lift_world, Hemb|]. intros v.
    apply ends_bind; [apply ends_emit|]. intros _. apply ends_ret.
  - apply ends_bind; [apply ends_lift_world, Hins|]. intros _. apply ends_ret.
Qed.

(** Two answers for each callback are enough. *)
Lemma ends_promise_all filePath data i steps :
  forall pending rejected (st : State W),
    (steps_left pending <= steps)%nat ->
    fst (promise_all steps filePath data i pending rejected st) <> OutOfFuel.
Proof.
  induction steps as [|steps IH]; intros pending rejected st Hsteps;
    destruct pending as [|first rest];
    try (destruct rejected; discriminate).
  - pose proof (steps_left_pos first rest). lia.
  - rewrite promise_all_unfold.
    set (pending := first :: rest) in *.
    set (k := (next_answer (length pending) (world st) mod length pending)%nat).
    assert (Hk : pending !! k = Some (nth k pending first))
      by (apply pick_lookup; discriminate).
    clearbody k pending.
    pose proof (steps_left_delete pending k _ Hk) as Hdel.
    pose proof (indexChunk_step filePath data i (nth k pending first) st) as Hstep.
    pose proof (ends_indexChunk filePath data i (nth k pending first) st) as Hend.
    destruct (indexChunk filePath data i (nth k pending first) st)
      as [[[callback'|]|e|] st'].
    + destruct Hstep as (H2 & H1 & _). apply IH.
      rewrite (steps_left_insert pending k _ _ Hk). lia.
    + destruct Hstep as (H1 & _). apply IH. lia.
    + apply IH. pose proof (steps_left_pos (nth k pending first) []). lia.
    + exfalso. apply Hend. reflexivity.
Qed.

Lemma ends_batch_loop filePath data (chunks : list Chunk) fuel :
  forall i,
    0 <= i -> Z.of_nat (length chunks) - i <= Z.of_nat fuel ->
    ends (batch_loop fuel filePath data chunks i).
Proof.
  induction fuel as [|fuel IH]; intros i Hi Hfuel; cbn [batch_loop];
    destruct (Z.ltb_spec i (Z.of_nat (length chunks))) as [Hlt|Hge];
    try lia; try apply ends_ret.
  apply ends_bind;
    [intros st; apply ends_promise_all; rewrite steps_left_callbacks; lia|].
  intros _. apply ends_bind.
  - destruct (i + batchSize <? Z.of_nat (length chunks));
      [apply ends_emit|apply ends_ret].
  - intros _. apply IH; unfold batchSize; lia.
Qed.

Lemma ends_indexUnits filePath units :
  forall total, ends (indexUnits filePath units total).
Proof.
  induction units as [|data units IH]; intros total; cbn [indexUnits].
  - apply ends_ret.
  - apply ends_bind; [|intros n; apply IH].
    unfold indexUnit. rewrite splitIntoChunks_default_returns.
    apply ends_bind; [apply ends_lift_result; discriminate|].
    intros chunks. apply ends_bind; [|intros; apply ends_ret].
    apply ends_batch_loop; lia.
Qed.

Lemma ends_indexDocument filePath : ends (indexDocument filePath).
Proof.
  unfold indexDocument.
  apply ends_bind; [apply ends_initialize|]. intros _.
  apply ends_bind; [apply ends_extractTextFromFile|]. intros units.
  apply ends_bind; [apply ends_indexUnits|]. intros n. apply ends_ret.
Qed.
End Ends.

(** X22.  When every call to the store, the provider and the readers comes
    back, with an answer or an error, [indexDocument] returns or throws: the
    two loops it runs come to an end.  The loop of [indexCommand] over the
    files then always returns its summary: an error in one file, whatever
    it is, does not stop the run. *)
Theorem index_files_returns {W} {C : Collaborators W} (files : list string) :
  collaborators_end C ->
  (forall filePath, ends (indexDocument filePath))
  /\ forall (acc : IndexSummary) (st : State W),
       exists summary st', index_files files acc st = (Ok summary, st').
Proof.
  intros HC. split; [intros filePath; apply ends_indexDocument, HC|].
  induction files as [|file files IH]; intros acc st.
  - unfold index_files, ret. eauto.
  - cbn [index_files]. unfold bind, try_catch.
    pose proof (ends_indexDocument HC file st) as Hend.
    destruct (indexDocument file st) as [[r|e|] s1]; simpl in Hend.
    + unfold ret. apply IH.
    + unfold ret. apply IH.
    + contradiction.
Qed.

Lemma index_files_returns_witness :
  exists summary st',
    index_files (C := offline_collaborators) ["a.txt"; "b.txt"]
      (mkSummary 0 0 0) (mkState fresh_engine tt []) = (Ok summary, st').
Proof.
  apply (index_files_returns (C := offline_collaborators) ["a.txt"; "b.txt"]).
  unfold collaborators_end. simpl. repeat split; intros; discriminate.
Defined.

(** ** What reaches the store *)



(** ** Rows of a spreadsheet *)

Lemma string_of_Z_nonempty z : JS.string_of_Z z <> EmptyString.
Proof.
  unfold JS.string_of_Z, NilZero.string_of_int.
  destruct (Z.to_int z) as [d|d]; [destruct d; discriminate|discriminate].
Qed.

Lemma String_of_cell_nonempty v :
  truthy_cell v = true -> String_of_cell v <> EmptyString.
Proof.
  destruct v as [s|z|[]]; simpl; intros H; try discriminate.
  - destruct s; [discriminate|discriminate].
  - apply string_of_Z_nonempty.
Qed.

Lemma row_cells_nonempty ws range r :
  Forall (fun s => s <> EmptyString) (row_cells ws range r).
Proof.
  unfold row_cells. apply Forall_forall. intros s Hs.
  apply list_elem_of_omap in Hs as (c & _ & Hc).
  destruct (ws_cells ws !! (r, c)) as [v|]; [|discriminate].
  destruct (truthy_cell v) eqn:Hv; [|discriminate].
  inversion Hc. apply String_of_cell_nonempty, Hv.
Qed.

Lemma row_cells_falsy ws range r :
  (forall c v, ws_cells ws !! (r, c) = Some v -> truthy_cell v = false) ->
  row_cells ws range r = [].
Proof.
  intros Hf. unfold row_cells.
  destruct (omap _ _) as [|s l] eqn:E; [reflexivity|].
  assert (Hs : s ∈ s :: l) by (left).
  rewrite <- E in Hs. apply list_elem_of_omap in Hs as (c & _ & Hc).
  destruct (ws_cells ws !! (r, c)) as [v|] eqn:Ev; [|discriminate].
  rewrite (Hf c v Ev) in Hc. discriminate.
Qed.

Lemma join_nonempty sep (l : list string) :
  l <> [] -> Forall (fun s => s <> EmptyString) l ->
  JS.join sep l <> EmptyString.
Proof.
  destruct l as [|w l]; [congruence|]. intros _ H.
  apply Forall_cons in H as [Hw _].
  destruct w as [|c w]; [congruence|].
  cbn [JS.join]. destruct l; [discriminate|]. simpl. discriminate.
Qed.

(** X24.  Every row [extractTextFromExcel] makes of a sheet lies in the
    sheet's range, numbered from 1: its [row] is the 0-based row plus one,
    its [rowRange] is "<row>:<row>", its [sheet] is the sheet's name and
    its text is not empty.  A sheet without a range gives no rows. *)
Theorem sheet_rows_well_formed (sheetName : string) (ws : Worksheet)
    (item : ExcelRow) :
  In item (sheet_rows sheetName ws) ->
  exists range,
    ws_ref ws = Some range
    /\ s_r range + 1 <= er_row item <= e_r range + 1
    /\ er_rowRange item =
         String.append (JS.string_of_Z (er_row item))
           (String.append ":" (JS.string_of_Z (er_row item)))
    /\ er_sheet item = sheetName
    /\ er_text item <> EmptyString
    /\ er_text item = JS.join " | " (row_cells ws range (er_row item - 1)).
Proof.
  unfold sheet_rows. intros Hin.
  destruct (ws_ref ws) as [range|]; [|destruct Hin].
  exists range. split; [reflexivity|].
  apply list_elem_of_In, list_elem_of_omap in Hin as (r & Hr & Hrow).
  apply elem_of_seqZ in Hr. cbv zeta in Hrow.
  destruct (Z.ltb_spec 0 (Z.of_nat (length (row_cells ws range r)))) as [Hlen|];
    [|discriminate].
  inversion Hrow; subst item; clear Hrow. cbn [er_row er_rowRange er_sheet er_text].
  replace (r + 1 - 1) with r by lia.
  repeat split; try lia.
  apply join_nonempty; [|apply row_cells_nonempty].
  intros E. rewrite E in Hlen. simpl in Hlen. lia.
Qed.

Lemma sheet_rows_well_formed_witness :
  exists range,
    ws_ref demo_sheet = Some range
    /\ s_r range + 1 <= 2 <= e_r range + 1.
Proof.
  destruct (sheet_rows_well_formed "Reqs" demo_sheet
              (mkExcelRow "7 | the user shall log in" "Reqs" 2 "2:2"))
    as (range & Href & Hrow & _).
  - vm_compute. right. left. reflexivity.
  - exists range. split; [exact Href|exact Hrow].
Defined.

(** X25.  A row of the range whose cells are all missing or falsy (an
    empty string, the number 0, [false]) is skipped: no extracted row
    carries its number, so a requirement row that holds only zeros is
    never indexed. *)
Theorem sheet_rows_skips_falsy_rows (sheetName : string) (ws : Worksheet)
    (r : Z) :
  (forall c v, ws_cells ws !! (r, c) = Some v -> truthy_cell v = false) ->
  ~ In (r + 1) (map er_row (sheet_rows sheetName ws)).
Proof.
  intros Hf Hin. apply in_map_iff in Hin as (item & Hrow & Hin).
  unfold sheet_rows in Hin.
  destruct (ws_ref ws) as [range|]; [|destruct Hin].
  apply list_elem_of_In, list_elem_of_omap in Hin as (r' & _ & Hitem).
  cbv zeta in Hitem.
  destruct (0 <? Z.of_nat (length (row_cells ws range r'))) eqn:Hlen;
    [|discriminate].
  inversion Hitem; subst item; clear Hitem. cbn [er_row] in Hrow.
  assert (r' = r) by lia. subst r'.
  rewrite (row_cells_falsy ws range r Hf) in Hlen. discriminate.
Qed.

Lemma sheet_rows_skips_falsy_rows_witness :
  ~ In (1 + 1) (map er_row (sheet_rows "Reqs" zero_row_sheet)).
Proof.
  apply (sheet_rows_skips_falsy_rows "Reqs" zero_row_sheet 1).
  intros c v.
  destruct (decide (c = 0)) as [->|H0];
    [vm_compute; intros E; inversion E; reflexivity|].
  destruct (decide (c = 1)) as [->|H1];
    [vm_compute; intros E; inversion E; reflexivity|].
  unfold zero_row_sheet. cbn [ws_cells list_to_map foldr uncurry].
  rewrite !lookup_insert_ne by (intros E; inversion E; lia).
  rewrite lookup_empty. discriminate.
Defined.

(** ** The document finder *)

Lemma glob_all_In {W} {F : FileSystem W} patterns directory (w : W) :
  forall acc files,
    glob_all patterns directory w acc = Ok files ->
    forall f,
      In f files <->
      In f acc
      \/ exists pattern matches,
           In pattern patterns
           /\ glob_sync pattern directory w = Ok matches
           /\ In f matches.
Proof.
  induction patterns as [|p patterns IH]; intros acc files H f.
  - cbn [glob_all] in H. inversion H; subst. split; [tauto|].
    intros [Hf|(p & m & [] & _)]. exact Hf.
  - cbn [glob_all] in H.
    destruct (glob_sync p directory w) as [matches|e|] eqn:E; try discriminate.
    rewrite (IH _ _ H f), in_app_iff. split.
    + intros [[Hf|Hf]|(q & m & Hq & Hg & Hf)].
      * left. exact Hf.
      * right. exists p, matches. split; [left; reflexivity|]. split; assumption.
      * right. exists q, m. split; [right; exact Hq|]. split; assumption.
    + intros [Hf|(q & m & [<-|Hq] & Hg & Hf)].
      * left. left. exact Hf.
      * rewrite E in Hg. inversion Hg; subst m. left. right. exact Hf.
      * right. exists q, m. split; [exact Hq|]. split; assumption.
Qed.

(** X26.  The files [findDocuments] returns are distinct, and they are
    exactly the matches of the patterns "*.<ext>" (or "**/*.<ext>" when
    recursive), one per trimmed, lower-cased entry of the comma-separated
    type list, that [stat] reports as regular files; a match whose [stat]
    throws is left out without an error. *)
Theorem findDocuments_files {W} {F : FileSystem W}
    (directory : string) (recursive : bool) (fileTypes : string) (w : W)
    (files : list string) :
  findDocuments directory recursive fileTypes w = Ok files ->
  NoDup files
  /\ forall f,
       In f files <->
       stat_isFile f w = Some true
       /\ exists ext matches,
            In ext (extensions_of fileTypes)
            /\ glob_sync (pattern_of recursive ext) directory w = Ok matches
            /\ In f matches.
Proof.
  unfold findDocuments. cbv zeta.
  destruct (glob_all _ directory w []) as [found|e|] eqn:E; try discriminate.
  intros H. inversion H; subst files; clear H. split.
  - unfold existing.
    apply NoDup_ListNoDup, List.NoDup_filter, NoDup_ListNoDup, uniq_NoDup.
  - intros f. unfold existing. rewrite filter_In, uniq_In.
    rewrite (glob_all_In _ _ _ _ _ E f). split.
    + intros [[[]|(p & m & Hp & Hg & Hf)] Hstat].
      apply in_map_iff in Hp as (ext & <- & Hext).
      split; [|exists ext, m; repeat split; assumption].
      destruct (stat_isFile f w) as [[]|]; [reflexivity|discriminate..].
    + intros (Hstat & ext & m & Hext & Hg & Hf). rewrite Hstat. split; [|reflexivity].
      right. exists (pattern_of recursive ext), m.
      split; [apply in_map, Hext|]. split; assumption.
Qed.

Lemma findDocuments_files_witness :
  NoDup ["/docs/a.pdf"; "/docs/notes.md"]
  /\ (In "/docs/b.pdf" ["/docs/a.pdf"; "/docs/notes.md"] <->
      stat_isFile (FileSystem := demo_files) "/docs/b.pdf" tt = Some true
      /\ exists ext matches,
           In ext (extensions_of "pdf, MD")
           /\ glob_sync (FileSystem := demo_files) (pattern_of false ext) "/docs" tt
                = Ok matches
           /\ In "/docs/b.pdf" matches).
Proof.
  destruct (findDocuments_files (F := demo_files) "/docs" false "pdf, MD" tt
              ["/docs/a.pdf"; "/docs/notes.md"] eq_refl) as [Hnd Hin].
  split; [exact Hnd|exact (Hin "/docs/b.pdf")].
Defined.
